(** * Defi-watcher: the health-check scheduler, the provider pool and the
      alert queue

    A shallow embedding of [src/watcher.ts] and [src/utils/alert.ts].

    The program is single-threaded JavaScript: every callback and every
    continuation after an [await] runs to its next suspension point without
    interleaving.  Each such run is one transition of the model.  Module
    state of the program (the [let] and [const] bindings at top level) is the
    state record of the corresponding module below; fields marked "ghost" do
    not exist in the program and only record what the event loop holds
    (suspended calls, pending timers, socket lifecycle). *)

From Stdlib Require Import ZArith List Bool Ascii String Floats.PrimFloat.
From stdpp Require Import gmap strings list.

Set Warnings "-inexact-float,-clear-no-such-hyp".

(** ** src/watcher.ts: concurrency and debounce *)

Module Watcher.

(** The result of [parseInt(..., 10)]: an integer or [NaN]. *)
Inductive jsint : Type :=
| NaN
| Int (z : Z).

(** [a < b] and [a >= b] for an integer [a] and a [parseInt] result [b];
    every comparison with [NaN] is false. *)
Definition js_lt (a : Z) (b : jsint) : bool :=
  match b with
  | NaN => false
  | Int z => (a <? z)%Z
  end.

Definition js_ge (a : Z) (b : jsint) : bool :=
  match b with
  | NaN => false
  | Int z => (z <=? a)%Z
  end.

(** The CONFIG block, lines 33-37. *)
Record Config : Type := {
  HF_THRESHOLD : float;
  USER_DEBOUNCE_SECONDS : jsint;
  MAX_CONCURRENT_CHECKS : jsint;
  TEST_MODE : bool
}.

(** Lines 40-43.  [suspended] is ghost: the calls of [checkUserHealth] that
    are suspended at [await poolContract.getUserAccountData(user)], oldest
    first, each named by its argument. *)
Record State : Type := {
  activeChecks : Z;
  activeUsers : gset string;
  lastCheck : gmap string Z;
  userHealthCache : gmap string float;
  suspended : list string
}.

Definition initial : State :=
  {| activeChecks := 0;
     activeUsers := ∅;
     lastCheck := ∅;
     userHealthCache := ∅;
     suspended := [] |}.

(** What a transition does to the outside.  [Query user now] is the call
    [poolContract.getUserAccountData(user)]; [now] is a ghost stamp, the
    clock reading of the call that issued it. *)
Inductive Effect : Type :=
| Query (user : string) (now : Z)
| SendAlert (user : string) (hf : float)
| LogAlert (user : string) (hf : float)
| LogFlashloan (user : string) (hf : float)
| LogError.

(** [shouldSkipUser], lines 48-52.  [now] is the value of [nowSeconds()].
    [!last] holds when the map has no entry and also when the entry is 0. *)
Definition shouldSkipUser (cfg : Config) (now : Z) (user : string)
    (s : State) : bool :=
  match lastCheck s !! user with
  | None => false
  | Some last =>
      if (last =? 0)%Z then false
      else js_lt (now - last) (USER_DEBOUNCE_SECONDS cfg)
  end.

(** [parseHealthFactor], lines 53-59.  The argument is the value of
    [parseFloat(formatUnits(hf, 18))], or [None] when that expression
    throws. *)
Definition parseHealthFactor (hf : option float) : float :=
  match hf with
  | Some f => f
  | None => infinity
  end.

(** [handleLiquidation], lines 127-139. *)
Definition handleLiquidation (cfg : Config) (user : string) (hf : float)
    : list Effect :=
  if TEST_MODE cfg then [LogAlert user hf; SendAlert user hf]
  else [LogFlashloan user hf].

(** [checkUserHealth], lines 142-152: the run from the call to the
    [await].  The two readings of [nowSeconds()] (in [shouldSkipUser] and
    in [lastCheck.set]) belong to one synchronous run and are taken as the
    same value [now]. *)
Definition checkUserHealth (cfg : Config) (now : Z) (user : string)
    (s : State) : State * list Effect :=
  if decide (user ∈ activeUsers s) then (s, [])
  else if shouldSkipUser cfg now user s then (s, [])
  else if js_ge (activeChecks s) (MAX_CONCURRENT_CHECKS cfg) then (s, [])
  else
    ({| activeChecks := activeChecks s + 1;
        activeUsers := {[user]} ∪ activeUsers s;
        lastCheck := <[user := now]> (lastCheck s);
        userHealthCache := userHealthCache s;
        suspended := suspended s ++ [user] |},
     [Query user now]).

(** How the awaited query ends: it resolves with account data, whose
    [healthFactor] field parses to the given number (see
    [parseHealthFactor]), or it rejects. *)
Inductive Outcome : Type :=
| Resolved (healthFactor : option float)
| Rejected.

(** [userHealthCache.get(user) ?? Infinity], line 154. *)
Definition lastHf (s : State) (user : string) : float :=
  match userHealthCache s !! user with
  | Some h => h
  | None => infinity
  end.

(** The [try] body after the [await] and the [catch], lines 153-161: the
    new cache and the effects.  [===] and [<=] on numbers are the IEEE 754
    comparisons. *)
Definition afterQuery (cfg : Config) (user : string) (o : Outcome)
    (s : State) : gmap string float * list Effect :=
  match o with
  | Rejected => (userHealthCache s, [LogError])
  | Resolved r =>
      let hf := parseHealthFactor r in
      if PrimFloat.eqb hf (lastHf s user) then (userHealthCache s, [])
      else
        (<[user := hf]> (userHealthCache s),
         if PrimFloat.leb hf (HF_THRESHOLD cfg)
         then handleLiquidation cfg user hf
         else [])
  end.

(** Removes the first occurrence of [user]: the suspended call that
    resumes. *)
Fixpoint resume (user : string) (l : list string) : list string :=
  match l with
  | [] => []
  | u :: l' => if decide (u = user) then l' else u :: resume user l'
  end.

(** [checkUserHealth], lines 153-165: the run from the end of the query to
    the end of [finally].  [handleLiquidation] has no [await] of its own, so
    [await handleLiquidation(user, hf)] only yields to the microtask queue;
    nothing that can run there reads or writes the entries of [user], and
    the run is taken as one transition. *)
Definition settle (cfg : Config) (user : string) (o : Outcome) (s : State)
    : State * list Effect :=
  let '(cache, effs) := afterQuery cfg user o s in
  ({| activeChecks := activeChecks s - 1;
      activeUsers := activeUsers s ∖ {[user]};
      lastCheck := lastCheck s;
      userHealthCache := cache;
      suspended := resume user (suspended s) |},
   effs).

Definition lower (c : ascii) : ascii :=
  let n := nat_of_ascii c in
  if ((65 <=? n) && (n <=? 90))%nat then ascii_of_nat (n + 32) else c.

(** [String.prototype.toLowerCase] on strings of ASCII characters, which
    addresses are (hexadecimal digits after [0x]): the letters A to Z are
    folded.  JavaScript folds every cased code point; the characters from
    128 on are left as they are here, and what depends on the value of
    [toLowerCase] is stated for ASCII strings, see [isAscii]. *)
Fixpoint toLowerCase (s : string) : string :=
  match s with
  | EmptyString => EmptyString
  | String c r => String (lower c) (toLowerCase r)
  end.

(** [onUserEvent], lines 169-171. *)
Definition onUserEvent (cfg : Config) (now : Z) (user : string) (s : State)
    : State * list Effect :=
  checkUserHealth cfg now (toLowerCase user) s.

(** The callback of the pending-transaction subscription, lines 233-244,
    for a transaction that decodes to [user]. *)
Definition onPendingTx (cfg : Config) (now : Z) (user : string) (s : State)
    : State * list Effect :=
  checkUserHealth cfg now user s.

(** One iteration of the loop of [fullScan], lines 278-280, up to the
    [await] inside [checkUserHealth]. *)
Definition fullScanVisit (cfg : Config) (now : Z) (user : string)
    (s : State) : State * list Effect :=
  checkUserHealth cfg now user s.

(** What the event loop can run next.  [now] is what [nowSeconds()]
    returns during the run.  [FullScan] is one visit of the loop of
    [fullScan]; [allUsers] is the empty list in the source (line 274), so
    the event stands for the loop as written, once the list is filled. *)
Inductive Event : Type :=
| UserEvent (user : string) (now : Z)
| PendingTx (user : string) (now : Z)
| FullScan (user : string) (now : Z)
| Settled (user : string) (o : Outcome).

(** A query can only end for a call that is suspended on it. *)
Definition step (cfg : Config) (ev : Event) (s : State)
    : option (State * list Effect) :=
  match ev with
  | UserEvent user now => Some (onUserEvent cfg now user s)
  | PendingTx user now => Some (onPendingTx cfg now user s)
  | FullScan user now => Some (fullScanVisit cfg now user s)
  | Settled user o =>
      if decide (user ∈ suspended s) then Some (settle cfg user o s)
      else None
  end.

(** A sequence of runs, with the effects in the order they happen. *)
Fixpoint exec (cfg : Config) (evs : list Event) (s : State)
    : option (State * list Effect) :=
  match evs with
  | [] => Some (s, [])
  | ev :: evs' =>
      match step cfg ev s with
      | None => None
      | Some (s1, e1) =>
          match exec cfg evs' s1 with
          | None => None
          | Some (s2, e2) => Some (s2, e1 ++ e2)
          end
      end
  end.

(** The state is reachable: some sequence of runs leads to it from the
    state at start-up. *)
Definition reachable (cfg : Config) (s : State) : Prop :=
  ∃ evs effs, exec cfg evs initial = Some (s, effs).

(** The clock reading of a notification. *)
Definition clock (ev : Event) : option Z :=
  match ev with
  | UserEvent _ now | PendingTx _ now | FullScan _ now => Some now
  | Settled _ _ => None
  end.

Definition isAlert (e : Effect) : bool :=
  match e with
  | SendAlert _ _ => true
  | _ => false
  end.

(** The bookkeeping agrees with the suspended calls. *)
Record consistent (s : State) : Prop := {
  counter_counts : activeChecks s = Z.of_nat (length (suspended s));
  one_per_user : NoDup (suspended s);
  flag_iff_suspended : ∀ u, u ∈ activeUsers s ↔ u ∈ suspended s
}.

(** Queries for one address are at least [w] seconds apart: of two
    queries in the log, the later has a stamp at least [w] above the
    stamp of the earlier. *)
Definition spaced (w : Z) (effs : list Effect) : Prop :=
  ∀ i j user t1 t2,
    (i < j)%nat →
    effs !! i = Some (Query user t1) →
    effs !! j = Some (Query user t2) →
    (w ≤ t2 - t1)%Z.

(** [lastCheck] remembers the latest query of every address in the log,
    and that one is at least [w] seconds after the older ones. *)
Definition recorded (w : Z) (s : State) (effs : list Effect) : Prop :=
  ∀ user t,
    Query user t ∈ effs →
    ∃ last, lastCheck s !! user = Some last ∧ last ≠ 0%Z ∧
            (t = last ∨ (w ≤ last - t)%Z).

(** The configuration when the environment sets none of the variables
    (lines 33-37), and the same in test mode. *)
Definition defaults : Config :=
  {| HF_THRESHOLD := 1.05%float;
     USER_DEBOUNCE_SECONDS := Int 30;
     MAX_CONCURRENT_CHECKS := Int 4;
     TEST_MODE := false |}.

Definition testMode : Config :=
  {| HF_THRESHOLD := 1.05%float;
     USER_DEBOUNCE_SECONDS := Int 30;
     MAX_CONCURRENT_CHECKS := Int 4;
     TEST_MODE := true |}.

(** The counter stays within an integer cap. *)
Definition within (cap : Z) (s : State) : Prop :=
  consistent s ∧ (activeChecks s ≤ cap)%Z.

(** The three ways [checkUserHealth] returns at once, and the one way it
    goes on to the query. *)
Inductive admission (cfg : Config) (now : Z) (user : string) (s : State)
    : State * list Effect → Prop :=
| adm_in_flight :
    user ∈ activeUsers s → admission cfg now user s (s, [])
| adm_debounced :
    user ∉ activeUsers s → shouldSkipUser cfg now user s = true →
    admission cfg now user s (s, [])
| adm_at_cap :
    user ∉ activeUsers s → shouldSkipUser cfg now user s = false →
    js_ge (activeChecks s) (MAX_CONCURRENT_CHECKS cfg) = true →
    admission cfg now user s (s, [])
| adm_admitted :
    user ∉ activeUsers s → shouldSkipUser cfg now user s = false →
    js_ge (activeChecks s) (MAX_CONCURRENT_CHECKS cfg) = false →
    admission cfg now user s
      ({| activeChecks := activeChecks s + 1;
          activeUsers := {[user]} ∪ activeUsers s;
          lastCheck := <[user := now]> (lastCheck s);
          userHealthCache := userHealthCache s;
          suspended := suspended s ++ [user] |},
       [Query user now]).

(** An account address with the capitals of its checksum, as the ABI
    decoder returns it. *)
Definition mixedCase : string := "0x5aAeb6053F3E94C9b9A09f33669435E7Ef1BeAed".

(** [nowSeconds], lines 45-47, when [Date.now()] reads [ms]
    milliseconds.  [Math.floor] of the quotient is the floor division. *)
Definition nowSeconds (ms : Z) : Z := (ms / 1000)%Z.

(** What the pending-transaction callback writes to the console beside
    the effects of [checkUserHealth]. *)
Inductive PendingLog : Type :=
| Detected (user : string)
| DecodeFailed.

(** The callback of the pending-transaction subscription, lines 233-244.
    [input] is [tx?.input], [None] when the transaction or its input is
    missing; [decode data] is
    [iface.decodeFunctionData("liquidationCall", data)[2]], [None] when the
    decoder throws (the [catch] of line 241 then logs and returns). *)
Definition onPending (cfg : Config) (decode : string → option string)
    (now : Z) (input : option string) (s : State)
    : State * list Effect * list PendingLog :=
  match input with
  | None => (s, [], [])
  | Some data =>
      if String.prefix "0x00aa2d" data then
        match decode data with
        | Some user => (onPendingTx cfg now user s, [Detected user])
        | None => (s, [], [DecodeFailed])
        end
      else (s, [], [])
  end.

(** [fullScan], lines 276-281, for [allUsers] equal to the addresses of
    [visits], when nothing else runs in between.  Each visit gives, beside
    the address, the clock reading [now] of its call of [checkUserHealth]
    and the outcome the query has if the call is admitted; [await] holds
    the loop until that query has settled and [finally] has run.  A call
    that is not admitted returns at once. *)
Fixpoint fullScan (cfg : Config) (visits : list (string * Z * Outcome))
    (s : State) : State * list Effect :=
  match visits with
  | [] => (s, [])
  | (user, now, o) :: rest =>
      let '(s1, e1) := fullScanVisit cfg now user s in
      let '(s2, e2) :=
        match e1 with
        | [] => (s1, [])
        | _ :: _ => settle cfg user o s1
        end in
      let '(s3, e3) := fullScan cfg rest s2 in
      (s3, e1 ++ e2 ++ e3)
  end.

(** The runs of the event loop that make up [fullScan cfg visits s]. *)
Fixpoint scanEvents (cfg : Config) (visits : list (string * Z * Outcome))
    (s : State) : list Event :=
  match visits with
  | [] => []
  | (user, now, o) :: rest =>
      let '(s1, e1) := fullScanVisit cfg now user s in
      match e1 with
      | [] => FullScan user now :: scanEvents cfg rest s1
      | _ :: _ =>
          FullScan user now :: Settled user o
            :: scanEvents cfg rest (settle cfg user o s1).1
      end
  end.

(** The queries of a log, with their stamps, and its alerts. *)
Definition queries (effs : list Effect) : list (string * Z) :=
  omap (λ e, match e with Query u t => Some (u, t) | _ => None end) effs.

Definition alerts (effs : list Effect) : list (string * float) :=
  omap (λ e, match e with SendAlert u hf => Some (u, hf) | _ => None end)
       effs.

Definition isSettled (ev : Event) : bool :=
  match ev with
  | Settled _ _ => true
  | _ => false
  end.

(** The query of [user] ends resolved in the run [ev]. *)
Definition resolves (user : string) (ev : Event) : bool :=
  match ev with
  | Settled u (Resolved _) => bool_decide (u = user)
  | _ => false
  end.

(** Every query in [l] ends, oldest first, the one of [u] as [os u]
    tells. *)
Definition settleAll (os : string → Outcome) (l : list string)
    : list Event :=
  (λ u, Settled u (os u)) <$> l.

(** One notification per address of [users], all with the clock at
    [now]. *)
Definition notifyAll (now : Z) (users : list string) : list Event :=
  (λ u, PendingTx u now) <$> users.

(** Every address in flight has a query in the log. *)
Definition accounted (s : State) (effs : list Effect) : Prop :=
  ∀ u, u ∈ suspended s → ∃ t, Query u t ∈ effs.

(** Every alert of the log was sent in test mode, for a metric at most the
    threshold, after a query for the same address. *)
Definition justified (cfg : Config) (effs : list Effect) : Prop :=
  ∀ j user hf,
    effs !! j = Some (SendAlert user hf) →
    TEST_MODE cfg = true ∧
    PrimFloat.leb hf (HF_THRESHOLD cfg) = true ∧
    ∃ i t, (i < j)%nat ∧ effs !! i = Some (Query user t).

(** The number of runs of [evs] in which a query ends. *)
Definition settles (evs : list Event) : nat :=
  length (filter (λ ev, isSettled ev = true) evs).

(** Every address in flight and every address with a metric in the cache
    has a record in [lastCheck]. *)
Definition onRecord (s : State) : Prop :=
  activeUsers s ⊆ dom (lastCheck s) ∧
  dom (userHealthCache s) ⊆ dom (lastCheck s).

(** A decoder that takes the data of a call of the function of line 224,
    told by its selector, and nothing else. *)
Definition selectorDecode (data : string) : option string :=
  if String.prefix "0x00a718a9" (toLowerCase data) then Some mixedCase
  else None.








(** The defaults with a cap that does not parse, and with a cap of 0. *)
Definition noCap : Config :=
  {| HF_THRESHOLD := 1.05%float;
     USER_DEBOUNCE_SECONDS := Int 30;
     MAX_CONCURRENT_CHECKS := NaN;
     TEST_MODE := false |}.

Definition zeroCap : Config :=
  {| HF_THRESHOLD := 1.05%float;
     USER_DEBOUNCE_SECONDS := Int 30;
     MAX_CONCURRENT_CHECKS := Int 0;
     TEST_MODE := false |}.

(** One notification admitted in test mode. *)
Definition oneAdmitted : State :=
  (onPendingTx testMode 100 "0xab01" initial).1.

End Watcher.

(** ** src/watcher.ts: multi-provider setup and subscriptions *)

Module Pool.

(** Ghost: where the socket of a provider stands, as the transport signals
    tell.  The program keeps no such record. *)
Inductive Lifecycle : Type :=
| Connecting
| Open
| Closed
| Errored.

(** Who holds a listener: the provider with the given index in
    [providers] (a provider is compared by identity, [p !== provider], and
    its index is its identity), or the Alchemy client of line 217. *)
Inductive Endpoint : Type :=
| Provider (i : nat)
| AlchemyWs.

Inductive Topic : Type :=
| Borrow
| Repay
| Deposit
| Withdraw
| LiquidationCall
| PendingTransactions
| MinedTransactions.

#[export] Instance Lifecycle_eq_dec : EqDecision Lifecycle.
Proof. solve_decision. Defined.
#[export] Instance Endpoint_eq_dec : EqDecision Endpoint.
Proof. solve_decision. Defined.
#[export] Instance Topic_eq_dec : EqDecision Topic.
Proof. solve_decision. Defined.

(** Lines 64-65 and the listeners of lines 174-206 and 228-263.
    [providers] holds the url of each provider; [lifecycle] is ghost. *)
Record State : Type := {
  providers : list string;
  activeProvider : option nat;
  lifecycle : list Lifecycle;
  subscriptions : list (Endpoint * Topic)
}.

(** The listeners one pass of [providers.forEach] registers, lines
    175-203. *)
Definition poolListeners (i : nat) : list (Endpoint * Topic) :=
  [(Provider i, Borrow); (Provider i, Repay); (Provider i, Deposit);
   (Provider i, Withdraw); (Provider i, LiquidationCall)].

(** The listeners of lines 228-263. *)
Definition alchemyListeners : list (Endpoint * Topic) :=
  [(AlchemyWs, PendingTransactions); (AlchemyWs, MinedTransactions)].

(** The module body, run once and synchronously: the loop of lines 67-93
    creates one provider per url; no socket signal can arrive before the
    end of the body, so [activeProvider] is still [null] at line 95 and
    becomes [providers[0]]; then every provider gets its listeners. *)
Definition startup (PROVIDER_URLS : list string) : State :=
  let n := length PROVIDER_URLS in
  {| providers := PROVIDER_URLS;
     activeProvider := head (seq 0 n);
     lifecycle := replicate n Connecting;
     subscriptions :=
       flat_map poolListeners (seq 0 n) ++ alchemyListeners |}.

(** [providers.find((p) => p !== provider)], line 78. *)
Definition fallback (i : nat) (s : State) : option nat :=
  find (λ p, negb (p =? i)%nat) (seq 0 (length (providers s))).

(** The ["open"] listener, lines 71-74. *)
Definition onOpen (i : nat) (s : State) : State :=
  {| providers := providers s;
     activeProvider :=
       match activeProvider s with
       | None => Some i
       | Some a => Some a
       end;
     lifecycle := <[i := Open]> (lifecycle s);
     subscriptions := subscriptions s |}.

(** The ["close"] listener, lines 76-86. *)
Definition onClose (i : nat) (s : State) : State :=
  {| providers := providers s;
     activeProvider := fallback i s;
     lifecycle := <[i := Closed]> (lifecycle s);
     subscriptions := subscriptions s |}.

(** The ["error"] listener, lines 88-90: it logs. *)
Definition onError (i : nat) (s : State) : State :=
  {| providers := providers s;
     activeProvider := activeProvider s;
     lifecycle := <[i := Errored]> (lifecycle s);
     subscriptions := subscriptions s |}.

(** A signal of the socket of provider [i]. *)
Inductive Signal : Type :=
| WsOpen (i : nat)
| WsClose (i : nat)
| WsError (i : nat).

Definition source (sig : Signal) : nat :=
  match sig with
  | WsOpen i | WsClose i | WsError i => i
  end.

Definition step (sig : Signal) (s : State) : option State :=
  if decide (source sig < length (providers s))%nat then
    Some match sig with
         | WsOpen i => onOpen i s
         | WsClose i => onClose i s
         | WsError i => onError i s
         end
  else None.

Fixpoint run (sigs : list Signal) (s : State) : option State :=
  match sigs with
  | [] => Some s
  | sig :: sigs' =>
      match step sig s with
      | None => None
      | Some s1 => run sigs' s1
      end
  end.

Definition isOpen (s : State) (i : nat) : Prop :=
  lifecycle s !! i = Some Open.

(** Every provider is closed or errored. *)
Definition allDown (s : State) : Prop :=
  ∀ i st, lifecycle s !! i = Some st → st = Closed ∨ st = Errored.

(** What every run keeps: the providers are the ones made at start-up, the
    active one is one of them, and [activeProvider] is [null] only when
    there is at most one provider and no socket is open. *)
Record poolInv (urls : list string) (s : State) : Prop := {
  inv_providers : providers s = urls;
  inv_lifecycle : length (lifecycle s) = length urls;
  inv_some : ∀ a, activeProvider s = Some a → (a < length urls)%nat;
  inv_none :
    activeProvider s = None →
    (length urls ≤ 1)%nat ∧ ∀ i, ¬ isOpen s i
}.

(** [Boolean(v)] for an environment variable: set and not empty. *)
Definition truthy (v : option string) : bool :=
  match v with
  | Some s => negb (String.eqb s "")
  | None => false
  end.

(** [PROVIDER_URLS], lines 27-30: [process.env.WSS_URL] and
    [process.env.WSS_URL_SECONDARY ?? ""], those that are truthy. *)
Definition PROVIDER_URLS (WSS_URL WSS_URL_SECONDARY : option string)
    : list string :=
  omap (λ v, if truthy v then v else None)
       [WSS_URL;
        Some match WSS_URL_SECONDARY with
             | Some s => s
             | None => ""
             end].

(** The provider of [poolContract], lines 120-124:
    [activeProvider ?? providers[0]], read once, in the module body, after
    line 95; [poolContract] is a [const]. *)
Definition poolContract (urls : list string) : option nat :=
  match activeProvider (startup urls) with
  | Some a => Some a
  | None => head (seq 0 (length urls))
  end.

(** [PROVIDER_URLS] when both [WSS_URL] and [WSS_URL_SECONDARY] are set,
    lines 27-30. *)
Definition twoUrls : list string := ["wss://primary"; "wss://secondary"].

End Pool.

(** ** src/utils/alert.ts: the rate-limit queue *)

Module Alert.

Definition TELEGRAM_INTERVAL_MS : Z := 1000.

(** [payload] of line 59: the time of the call and the message. *)
Record AlertItem : Type := { message : Z * string }.

#[export] Instance AlertItem_eq_dec : EqDecision AlertItem.
Proof. solve_decision. Defined.

(** Lines 15, 31 and 32.  [bot] tells whether the bot was created at line
    18.  Ghost: [timers] holds the due time of every pending
    [setTimeout(processQueue, TELEGRAM_INTERVAL_MS)], [inFlight] the items
    whose [bot.sendMessage] promise has not settled, oldest first. *)
Record State : Type := {
  bot : bool;
  ALERT_QUEUE : list AlertItem;
  sending : bool;
  timers : list Z;
  inFlight : list AlertItem
}.

(** [token && chatId] decides [bot], lines 17-24. *)
Definition startup (configured : bool) : State :=
  {| bot := configured;
     ALERT_QUEUE := [];
     sending := false;
     timers := [];
     inFlight := [] |}.

(** What happens, with the time (in ms) it happens at.  [Finished] is
    ghost: the promise of the delivery of [item] settled. *)
Inductive Log : Type :=
| SendMessage (t : Z) (item : AlertItem)
| Finished (t : Z) (item : AlertItem) (ok : bool)
| ConsoleError (item : AlertItem)
| ConsoleAlert (payload : Z * string).

(** [processQueue], lines 35-41, up to the call of [bot.sendMessage]. *)
Definition processQueue (t : Z) (s : State) : State * list Log :=
  if negb (bot s) || sending s then (s, [])
  else
    match ALERT_QUEUE s with
    | [] => (s, [])
    | item :: rest =>
        ({| bot := bot s;
            ALERT_QUEUE := rest;
            sending := true;
            timers := timers s;
            inFlight := inFlight s ++ [item] |},
         [SendMessage t item])
    end.

(** The [.catch] and [.finally] callbacks, lines 42-50, when the promise
    of the [k]-th delivery in flight settles at time [t]. *)
Definition finish (t : Z) (k : nat) (ok : bool) (s : State)
    : option (State * list Log) :=
  match inFlight s !! k with
  | None => None
  | Some item =>
      Some ({| bot := bot s;
               ALERT_QUEUE := ALERT_QUEUE s;
               sending := false;
               timers :=
                 match ALERT_QUEUE s with
                 | [] => timers s
                 | _ :: _ => timers s ++ [(t + TELEGRAM_INTERVAL_MS)%Z]
                 end;
               inFlight := delete k (inFlight s) |},
            Finished t item ok :: (if ok then [] else [ConsoleError item]))
  end.

(** The [k]-th pending timer fires at time [t], not before it is due, and
    runs [processQueue]. *)
Definition timeout (t : Z) (k : nat) (s : State)
    : option (State * list Log) :=
  match timers s !! k with
  | None => None
  | Some due =>
      if (due <=? t)%Z then
        Some (processQueue t
                {| bot := bot s;
                   ALERT_QUEUE := ALERT_QUEUE s;
                   sending := sending s;
                   timers := delete k (timers s);
                   inFlight := inFlight s |})
      else None
  end.

(** [sendAlert], lines 57-69, called at time [t]. *)
Definition sendAlert (t : Z) (msg : string) (s : State)
    : State * list Log :=
  let payload := (t, msg) in
  if negb (bot s) then (s, [ConsoleAlert payload])
  else
    processQueue t
      {| bot := bot s;
         ALERT_QUEUE := ALERT_QUEUE s ++ [{| message := payload |}];
         sending := sending s;
         timers := timers s;
         inFlight := inFlight s |}.

Inductive Event : Type :=
| Enqueue (t : Z) (msg : string)
| Settle (t : Z) (k : nat) (ok : bool)
| Timer (t : Z) (k : nat).

Definition step (ev : Event) (s : State) : option (State * list Log) :=
  match ev with
  | Enqueue t msg => Some (sendAlert t msg s)
  | Settle t k ok => finish t k ok s
  | Timer t k => timeout t k s
  end.

Fixpoint exec (evs : list Event) (s : State) : option (State * list Log) :=
  match evs with
  | [] => Some (s, [])
  | ev :: evs' =>
      match step ev s with
      | None => None
      | Some (s1, l1) =>
          match exec evs' s1 with
          | None => None
          | Some (s2, l2) => Some (s2, l1 ++ l2)
          end
      end
  end.

(** The items handed to [bot.sendMessage], in order. *)
Definition attempts (log : list Log) : list AlertItem :=
  omap (λ e, match e with SendMessage _ item => Some item | _ => None end)
       log.

(** The items [sendAlert] made, in order, when the bot exists. *)
Definition enqueued (evs : list Event) : list AlertItem :=
  omap (λ ev, match ev with
              | Enqueue t msg => Some {| message := (t, msg) |}
              | _ => None
              end) evs.

(** Every [bot.sendMessage] of the log comes at least
    [TELEGRAM_INTERVAL_MS] after the latest end of a delivery before it;
    [last] is the latest end so far. *)
Fixpoint pacedFrom (last : option Z) (log : list Log) : Prop :=
  match log with
  | [] => True
  | SendMessage t _ :: log' =>
      match last with
      | Some f => (f + TELEGRAM_INTERVAL_MS ≤ t)%Z
      | None => True
      end ∧ pacedFrom last log'
  | Finished t _ _ :: log' => pacedFrom (Some t) log'
  | _ :: log' => pacedFrom last log'
  end.

(** A burst: the messages of [msgs] passed to [sendAlert] one after the
    other, each with the time of its call. *)
Definition burst (msgs : list (Z * string)) : list Event :=
  (λ m, Enqueue m.1 m.2) <$> msgs.

Definition isEnqueue (ev : Event) : bool :=
  match ev with
  | Enqueue _ _ => true
  | _ => false
  end.

(** The state between the runs of a drain that no [sendAlert] disturbs:
    a delivery is in flight and no timer is pending, or none is in flight
    and either nothing waits and no timer is pending, or the one pending
    timer is the one that the latest end of a delivery armed. *)
Definition draining (last : option Z) (s : State) : Prop :=
  bot s = true ∧
  ((sending s = true ∧ timers s = []) ∨
   (sending s = false ∧ ALERT_QUEUE s = [] ∧ timers s = []) ∨
   (sending s = false ∧
    ∃ f, last = Some f ∧ timers s = [(f + TELEGRAM_INTERVAL_MS)%Z])).

(** The latest end of a delivery in the log, [last] if there is none. *)
Fixpoint lastEnd (last : option Z) (log : list Log) : option Z :=
  match log with
  | [] => last
  | Finished t _ _ :: log' => lastEnd (Some t) log'
  | _ :: log' => lastEnd last log'
  end.

(** At most one delivery is in flight, and [sending] tells whether one
    is. *)
Definition oneSender (s : State) : Prop :=
  (sending s = true ∧ bot s = true ∧ ∃ item, inFlight s = [item]) ∨
  (sending s = false ∧ inFlight s = []).

End Alert.

(** * Properties of the scheduler *)

Section Scheduler.

Import Watcher.

Context (cfg : Config).

Lemma resume_elem_of (user u : string) (l : list string) :
  NoDup l → u ∈ resume user l ↔ u ∈ l ∧ u ≠ user.
Proof.
  induction l as [|v l IH]; simpl; intros Hnd.
  - set_solver.
  - apply NoDup_cons in Hnd as [Hv Hnd].
    destruct (decide (v = user)) as [->|Hne].
    + split.
      * intros Hu. split; [set_solver|]. intros ->. done.
      * intros [Hu Hne]. set_solver.
    + rewrite !elem_of_cons, IH by done. naive_solver.
Qed.

Lemma resume_NoDup (user : string) (l : list string) :
  NoDup l → NoDup (resume user l).
Proof.
  induction l as [|v l IH]; simpl; intros Hnd; [done|].
  apply NoDup_cons in Hnd as [Hv Hnd].
  destruct (decide (v = user)); [done|].
  apply NoDup_cons. split; [|auto].
  rewrite resume_elem_of by done. tauto.
Qed.

Lemma resume_length (user : string) (l : list string) :
  user ∈ l → S (length (resume user l)) = length l.
Proof.
  induction l as [|v l IH]; simpl; intros Hin.
  - set_solver.
  - destruct (decide (v = user)); [done|].
    simpl. f_equal. apply IH. set_solver.
Qed.

Lemma checkUserHealth_cases (now : Z) (user : string) (s : State) :
  admission cfg now user s (checkUserHealth cfg now user s).
Proof.
  unfold checkUserHealth.
  destruct (decide (user ∈ activeUsers s)); [by constructor|].
  destruct (shouldSkipUser cfg now user s) eqn:Hskip; [by constructor|].
  destruct (js_ge _ _) eqn:Hcap; by constructor.
Qed.

Lemma checkUserHealth_consistent (now : Z) (user : string) (s : State) :
  consistent s → consistent (checkUserHealth cfg now user s).1.
Proof.
  intros [Hc Hnd Hiff].
  destruct (checkUserHealth_cases now user s); simpl; try done.
  split; simpl.
  - rewrite length_app. simpl. lia.
  - apply NoDup_app. split_and!; [done| |apply NoDup_singleton].
    intros u Hu ->%list_elem_of_singleton. apply Hiff in Hu. done.
  - intros u. rewrite elem_of_app, list_elem_of_singleton, elem_of_union,
      elem_of_singleton, Hiff. tauto.
Qed.

Lemma settle_consistent (user : string) (o : Outcome) (s : State) :
  consistent s → user ∈ suspended s → consistent (settle cfg user o s).1.
Proof.
  intros [Hc Hnd Hiff] Hin. unfold settle.
  destruct (afterQuery cfg user o s) as [cache effs]. split; simpl.
  - pose proof (resume_length user _ Hin). lia.
  - by apply resume_NoDup.
  - intros u. rewrite resume_elem_of, elem_of_difference, elem_of_singleton,
      Hiff by done. tauto.
Qed.

Lemma step_consistent (ev : Event) (s s' : State) (effs : list Effect) :
  consistent s → step cfg ev s = Some (s', effs) → consistent s'.
Proof.
  intros Hs Hstep. change s' with (s', effs).1.
  destruct ev as [u now|u now|u now|u o]; simpl in Hstep.
  1-3: injection Hstep as <-; by apply checkUserHealth_consistent.
  destruct (decide (u ∈ suspended s)) as [Hin|]; [|done].
  injection Hstep as <-. by apply settle_consistent.
Qed.

Lemma exec_consistent (evs : list Event) (s s' : State)
    (effs : list Effect) :
  consistent s → exec cfg evs s = Some (s', effs) → consistent s'.
Proof.
  revert s effs. induction evs as [|ev evs IH]; simpl; intros s effs Hs He.
  - by injection He as <- _.
  - destruct (step cfg ev s) as [[s1 e1]|] eqn:Hstep; [|done].
    destruct (exec cfg evs s1) as [[s2 e2]|] eqn:Hrest; [|done].
    injection He as <- _. eauto using step_consistent.
Qed.

Lemma initial_consistent : consistent initial.
Proof. split; simpl; [done|constructor|set_solver]. Qed.

Lemma reachable_consistent (s : State) : reachable cfg s → consistent s.
Proof.
  intros (evs & effs & He).
  eapply exec_consistent; [apply initial_consistent|done].
Qed.

Lemma checkUserHealth_within (cap : Z) (now : Z) (user : string)
    (s : State) :
  MAX_CONCURRENT_CHECKS cfg = Int cap →
  within cap s → within cap (checkUserHealth cfg now user s).1.
Proof.
  intros Hcap [Hs Hle]. split; [by apply checkUserHealth_consistent|].
  destruct (checkUserHealth_cases now user s) as [| | |_ _ Hge];
    simpl; try done.
  rewrite Hcap in Hge. simpl in Hge. lia.
Qed.

Lemma step_within (cap : Z) (ev : Event) (s s' : State)
    (effs : list Effect) :
  MAX_CONCURRENT_CHECKS cfg = Int cap →
  within cap s → step cfg ev s = Some (s', effs) → within cap s'.
Proof.
  intros Hcap Hw Hstep. change s' with (s', effs).1.
  destruct ev as [u now|u now|u now|u o]; simpl in Hstep.
  1-3: injection Hstep as <-; by apply checkUserHealth_within.
  destruct (decide (u ∈ suspended s)) as [Hin|]; [|done].
  injection Hstep as <-. destruct Hw as [Hs Hle].
  split; [by apply settle_consistent|].
  unfold settle. destruct (afterQuery cfg u o s). simpl. lia.
Qed.

Lemma exec_within (cap : Z) (evs : list Event) (s s' : State)
    (effs : list Effect) :
  MAX_CONCURRENT_CHECKS cfg = Int cap →
  within cap s → exec cfg evs s = Some (s', effs) → within cap s'.
Proof.
  intros Hcap. revert s effs.
  induction evs as [|ev evs IH]; simpl; intros s effs Hs He.
  - by injection He as <- _.
  - destruct (step cfg ev s) as [[s1 e1]|] eqn:Hstep; [|done].
    destruct (exec cfg evs s1) as [[s2 e2]|] eqn:Hrest; [|done].
    injection He as <- _. eauto using step_within.
Qed.

Lemma consistent_size (s : State) :
  consistent s → size (activeUsers s) = length (suspended s).
Proof.
  intros [_ Hnd Hiff].
  rewrite <- (size_list_to_set (C := gset string)) by done.
  f_equal. apply set_eq. intros u. by rewrite elem_of_list_to_set.
Qed.

Lemma reachable_within (cap : Z) (s : State) :
  MAX_CONCURRENT_CHECKS cfg = Int cap → (0 ≤ cap)%Z → reachable cfg s →
  within cap s.
Proof.
  intros Hcap Hpos (evs & effs & He).
  eapply exec_within; [done| |done].
  split; [apply initial_consistent|simpl; lia].
Qed.

(** C2.  With a cap that is an integer [cap >= 0]: in every reachable
    state the number of suspended queries, and the counter
    [activeChecks], is at most [cap]; a call of [checkUserHealth] that
    finds the counter at the cap returns the state as it is and issues no
    query; and a call that changes the counter or has any effect found
    the counter below the cap and added one. *)
Theorem in_flight_within_cap (cap : Z) (s : State) :
  MAX_CONCURRENT_CHECKS cfg = Int cap → (0 ≤ cap)%Z → reachable cfg s →
  (Z.of_nat (length (suspended s)) ≤ cap)%Z ∧
  (activeChecks s ≤ cap)%Z ∧
  (∀ now user,
     (cap ≤ activeChecks s)%Z →
     checkUserHealth cfg now user s = (s, [])) ∧
  (∀ now user s' effs,
     checkUserHealth cfg now user s = (s', effs) →
     activeChecks s' ≠ activeChecks s ∨ effs ≠ [] →
     (activeChecks s < cap)%Z ∧ activeChecks s' = (activeChecks s + 1)%Z).
Proof.
  intros Hcap Hpos Hr.
  destruct (reachable_within cap s Hcap Hpos Hr) as [Hs Hle].
  split_and!.
  - destruct Hs as [<- _ _]. done.
  - done.
  - intros now user Heq.
    destruct (checkUserHealth_cases now user s) as [| | |_ _ Hge]; try done.
    rewrite Hcap in Hge. simpl in Hge. lia.
  - intros now user s' effs' Hcall Hch.
    destruct (checkUserHealth_cases now user s) as [| | |_ _ Hge];
      injection Hcall as <- <-; try (destruct Hch; done).
    rewrite Hcap in Hge. simpl in *. lia.
Qed.

(** C4.  An address is the string [checkUserHealth] is called with.  In
    every reachable state no address has two suspended queries;
    the flag of an address ([activeUsers]) is set exactly while a query
    for it is suspended; a call for an address whose flag is set returns
    the state as it is, with no effect; a call that issues a query found
    the flag clear and sets it in the same run; and when the query ends,
    resolved or rejected, the flag is clear and no query for the address
    remains. *)
Theorem one_query_per_address (s : State) :
  reachable cfg s →
  NoDup (suspended s) ∧
  (∀ u, u ∈ activeUsers s ↔ u ∈ suspended s) ∧
  (∀ now u, u ∈ activeUsers s → checkUserHealth cfg now u s = (s, [])) ∧
  (∀ now u s' effs,
     checkUserHealth cfg now u s = (s', effs) → effs ≠ [] →
     (u ∉ activeUsers s) ∧ u ∈ activeUsers s' ∧
     suspended s' = suspended s ++ [u] ∧ effs = [Query u now]) ∧
  (∀ u o s' effs,
     step cfg (Settled u o) s = Some (s', effs) →
     u ∈ activeUsers s ∧ (u ∉ activeUsers s') ∧ (u ∉ suspended s')).
Proof.
  intros Hr. pose proof (reachable_consistent s Hr) as Hs.
  destruct (Hs) as [_ Hnd Hiff]. split_and!; try done.
  - intros now u Hin. unfold checkUserHealth.
    by destruct (decide (u ∈ activeUsers s)).
  - intros now u s' effs Hcall Hne.
    destruct (checkUserHealth_cases now u s);
      injection Hcall as <- <-; try done.
    simpl. split_and!; try done. set_solver.
  - intros u o s' effs Hstep. simpl in Hstep.
    destruct (decide (u ∈ suspended s)) as [Hin|]; [|done].
    injection Hstep as Hst.
    pose proof (settle_consistent u o s Hs Hin) as [_ _ Hiff'].
    rewrite Hst in Hiff'. simpl in Hiff'.
    assert (u ∉ activeUsers s') as Hout.
    { unfold settle in Hst. destruct (afterQuery cfg u o s).
      injection Hst as <- _. simpl. set_solver. }
    split_and!; [by apply Hiff|done|by rewrite <- Hiff'].
Qed.

(** C10.  In every reachable state the counter [activeChecks] is the
    number of addresses in [activeUsers]; every transition from such a
    state moves the counter and the set together, so the equality holds
    again right after it; and an integer cap [cap >= 0] bounds the size of
    the set as well. *)
Theorem counter_is_size_of_in_flight_set (s : State) :
  reachable cfg s →
  activeChecks s = Z.of_nat (size (activeUsers s)) ∧
  (∀ ev s' effs,
     step cfg ev s = Some (s', effs) →
     activeChecks s' = Z.of_nat (size (activeUsers s')) ∧
     (activeChecks s' - activeChecks s
      = Z.of_nat (size (activeUsers s')) - Z.of_nat (size (activeUsers s)))%Z) ∧
  (∀ cap, MAX_CONCURRENT_CHECKS cfg = Int cap → (0 ≤ cap)%Z →
          (Z.of_nat (size (activeUsers s)) ≤ cap)%Z).
Proof.
  intros Hr. pose proof (reachable_consistent s Hr) as Hs.
  assert (activeChecks s = Z.of_nat (size (activeUsers s))) as Heq.
  { rewrite (consistent_size s Hs). by destruct Hs. }
  split_and!; [done| |].
  - intros ev s' effs Hstep.
    pose proof (step_consistent ev s s' effs Hs Hstep) as Hs'.
    assert (activeChecks s' = Z.of_nat (size (activeUsers s'))) as Heq'.
    { rewrite (consistent_size s' Hs'). by destruct Hs'. }
    split; [done|lia].
  - intros cap Hcap Hpos.
    destruct (reachable_within cap s Hcap Hpos Hr) as [_ Hle]. lia.
Qed.
End Scheduler.

Section Debounce.

Import Watcher.

Context (cfg : Config) (w : Z).
Hypothesis window : USER_DEBOUNCE_SECONDS cfg = Int w.
Hypothesis window_pos : (0 ≤ w)%Z.

Lemma afterQuery_no_query (user : string) (o : Outcome) (s : State)
    (u : string) (t : Z) :
  Query u t ∉ (afterQuery cfg user o s).2.
Proof.
  unfold afterQuery, handleLiquidation.
  destruct o as [r|]; simpl; [|set_solver].
  repeat case_match; simpl; set_solver.
Qed.

Lemma recorded_admit (now : Z) (user : string) (s : State)
    (past : list Effect) :
  now ≠ 0%Z → shouldSkipUser cfg now user s = false →
  recorded w s past →
  ∀ t, Query user t ∈ past → (w ≤ now - t)%Z.
Proof.
  intros Hnow Hskip Hrec t Hin.
  destruct (Hrec user t Hin) as (last & Hlast & Hnz & Hgap).
  unfold shouldSkipUser in Hskip. rewrite Hlast, window in Hskip.
  destruct (Z.eqb_spec last 0); [done|]. simpl in Hskip.
  apply Z.ltb_ge in Hskip. lia.
Qed.

Lemma checkUserHealth_spaced (now : Z) (user : string) (s : State)
    (past : list Effect) :
  now ≠ 0%Z → recorded w s past → spaced w past →
  recorded w (checkUserHealth cfg now user s).1
           (past ++ (checkUserHealth cfg now user s).2) ∧
  spaced w (past ++ (checkUserHealth cfg now user s).2).
Proof.
  intros Hnow Hrec Hsp.
  destruct (checkUserHealth_cases cfg now user s) as [| | |_ Hskip _];
    simpl; rewrite ?app_nil_r; try done.
  pose proof (recorded_admit now user s past Hnow Hskip Hrec) as Hgap.
  split.
  - intros u t [Hin|Hin%list_elem_of_singleton]%elem_of_app; simpl.
    + destruct (decide (u = user)) as [->|Hne].
      * exists now. rewrite lookup_insert_eq.
        split_and!; [done|done|]. right. by apply Hgap.
      * rewrite lookup_insert_ne by done. by apply Hrec.
    + injection Hin as -> ->. exists now. rewrite lookup_insert_eq. auto.
  - intros i j u t1 t2 Hij Hi Hj.
    apply lookup_app_Some in Hj as [Hj|[Hlen Hj]].
    + apply lookup_lt_Some in Hj as Hjlt.
      rewrite lookup_app_l in Hi by lia. eauto.
    + apply list_lookup_singleton_Some in Hj as [Hj0 [= -> ->]].
      rewrite lookup_app_l in Hi by lia.
      apply Hgap. by eapply list_elem_of_lookup_2.
Qed.

Lemma settle_spaced (user : string) (o : Outcome) (s : State)
    (past : list Effect) :
  recorded w s past → spaced w past →
  recorded w (settle cfg user o s).1 (past ++ (settle cfg user o s).2) ∧
  spaced w (past ++ (settle cfg user o s).2).
Proof.
  intros Hrec Hsp. unfold settle.
  pose proof (afterQuery_no_query user o s) as Hno.
  destruct (afterQuery cfg user o s) as [cache effs]. simpl in *.
  split.
  - intros u t [Hin|Hin]%elem_of_app; [by apply Hrec|].
    by apply Hno in Hin.
  - intros i j u t1 t2 Hij Hi Hj.
    apply lookup_app_Some in Hj as [Hj|[_ Hj]].
    + apply lookup_lt_Some in Hj as Hjlt.
      rewrite lookup_app_l in Hi by lia. eauto.
    + apply list_elem_of_lookup_2 in Hj. by apply Hno in Hj.
Qed.

Lemma step_spaced (ev : Event) (s s' : State) (past effs : list Effect) :
  clock ev ≠ Some 0%Z → recorded w s past → spaced w past →
  step cfg ev s = Some (s', effs) →
  recorded w s' (past ++ effs) ∧ spaced w (past ++ effs).
Proof.
  intros Hclock Hrec Hsp Hstep.
  destruct ev as [u now|u now|u now|u o]; simpl in Hstep, Hclock.
  1-3: injection Hstep as Hst;
    unfold onUserEvent, onPendingTx, fullScanVisit in Hst;
    assert (now ≠ 0%Z) as Hnow by congruence;
    match type of Hst with checkUserHealth _ _ ?v _ = _ =>
      pose proof (checkUserHealth_spaced now v s past Hnow Hrec Hsp) as H
    end;
    by rewrite Hst in H.
  destruct (decide (u ∈ suspended s)); [|done].
  injection Hstep as Hst.
  pose proof (settle_spaced u o s past Hrec Hsp) as H.
  by rewrite Hst in H.
Qed.

Lemma exec_spaced (evs : list Event) (s s' : State)
    (past effs : list Effect) :
  Forall (λ ev, clock ev ≠ Some 0%Z) evs →
  recorded w s past → spaced w past →
  exec cfg evs s = Some (s', effs) →
  recorded w s' (past ++ effs) ∧ spaced w (past ++ effs).
Proof.
  revert s past effs.
  induction evs as [|ev evs IH]; simpl; intros s past effs Hcl Hrec Hsp He.
  - injection He as <- <-. by rewrite app_nil_r.
  - apply Forall_cons in Hcl as [Hev Hcl].
    destruct (step cfg ev s) as [[s1 e1]|] eqn:Hstep; [|done].
    destruct (exec cfg evs s1) as [[s2 e2]|] eqn:Hrest; [|done].
    injection He as <- <-.
    destruct (step_spaced ev s s1 past e1 Hev Hrec Hsp Hstep) as [Hrec1 Hsp1].
    rewrite app_assoc. eauto.
Qed.

(** C3.  With a debounce window that is an integer [w >= 0] and a clock
    that never reads 0 ([shouldSkipUser] takes a record of 0 for no
    record): in every run from start-up, two queries for the same
    address have stamps at least [w] apart, the later minus the earlier,
    so two calls less than [w] seconds apart cannot both issue a query;
    a call that issues a query records its clock reading in [lastCheck];
    and a call for an address whose record is less than [w] seconds old
    returns the state as it is and issues no query. *)
Theorem debounce_one_query_per_window (evs : list Event) (s : State)
    (effs : list Effect) :
  Forall (λ ev, clock ev ≠ Some 0%Z) evs →
  exec cfg evs initial = Some (s, effs) →
  spaced w effs ∧
  (∀ now user s' effs',
     checkUserHealth cfg now user s = (s', effs') → effs' ≠ [] →
     effs' = [Query user now] ∧ lastCheck s' !! user = Some now) ∧
  (∀ now user last,
     lastCheck s !! user = Some last → last ≠ 0%Z → (now - last < w)%Z →
     checkUserHealth cfg now user s = (s, [])).
Proof.
  intros Hcl He. split_and!.
  - eapply (exec_spaced evs initial s [] effs); [done| | |done].
    + intros u t Hin. by apply elem_of_nil in Hin.
    + intros i j u t1 t2 _ Hi. by rewrite lookup_nil in Hi.
  - intros now user s' effs' Hcall Hne.
    destruct (checkUserHealth_cases cfg now user s);
      injection Hcall as <- <-; try done.
    simpl. by rewrite lookup_insert_eq.
  - intros now user last Hlast Hnz Hlt. unfold checkUserHealth.
    destruct (decide (user ∈ activeUsers s)); [done|].
    unfold shouldSkipUser. rewrite Hlast, window.
    destruct (Z.eqb_spec last 0); [done|]. simpl.
    by apply Z.ltb_lt in Hlt as ->.
Qed.
End Debounce.

Section Decision.

Import Watcher.

Context (cfg : Config).

(** C1 (amended).  When a query for [user] resolves, the effects of the
    run are those of [handleLiquidation] if the parsed metric is at most
    the threshold and differs from the metric on record (infinity when
    there is none), and there is no effect otherwise; so an alert is sent
    exactly when, besides, test mode is on, and then exactly one; and a
    metric equal to the one on record has no effect at all. *)
Theorem alert_iff_test_mode_and_at_risk_and_changed (user : string)
    (r : option float) (s : State) :
  let hf := parseHealthFactor r in
  let effs := (settle cfg user (Resolved r) s).2 in
  let atRisk :=
    PrimFloat.leb hf (HF_THRESHOLD cfg)
    && negb (PrimFloat.eqb hf (lastHf s user)) in
  effs = (if atRisk then handleLiquidation cfg user hf else []) ∧
  existsb isAlert effs = TEST_MODE cfg && atRisk ∧
  length (filter (λ e, isAlert e = true) effs)
    = (if TEST_MODE cfg && atRisk then 1 else 0)%nat ∧
  (PrimFloat.eqb hf (lastHf s user) = true → effs = []).
Proof.
  unfold settle, afterQuery, lastHf, handleLiquidation. simpl.
  destruct (PrimFloat.eqb _ _); simpl.
  - rewrite andb_false_r. simpl. by rewrite andb_false_r.
  - rewrite andb_true_r.
    destruct (PrimFloat.leb _ _), (TEST_MODE cfg); simpl; done.
Qed.

End Decision.

Section SchedulerExamples.

Import Watcher.

(** C1, as stated, fails outside test mode: with the default configuration
    a first result 0.98 for an address, at most the threshold 1.05 and
    different from the record (there is none), sends no alert; the run only
    logs the flashloan trigger. *)
Lemma no_alert_outside_test_mode :
  snd <$> exec defaults
            [UserEvent "0xab01" 100;
             Settled "0xab01" (Resolved (Some 0.98%float))] initial
    = Some [Query "0xab01" 100; LogFlashloan "0xab01" 0.98%float] ∧
  PrimFloat.leb 0.98%float (HF_THRESHOLD defaults) = true ∧
  PrimFloat.eqb 0.98%float (lastHf initial "0xab01") = false.
Proof. split_and!; vm_compute; reflexivity. Qed.

(** A record of 0 counts as no record: were the clock to read 0 at an
    admission, the next call would pass the debounce test at once. *)
Lemma debounce_ignores_a_record_of_zero :
  snd <$> exec defaults
            [UserEvent "0xab01" 0; Settled "0xab01" Rejected;
             UserEvent "0xab01" 1] initial
    = Some [Query "0xab01" 0; LogError; Query "0xab01" 1].
Proof. vm_compute. reflexivity. Qed.

(** [oneAdmitted] is reachable: one pending-transaction notification leads
    to it. *)
Lemma oneAdmitted_reachable : reachable testMode oneAdmitted.
Proof.
  exists [PendingTx "0xab01" 100], [Query "0xab01" 100]. reflexivity.
Qed.

(** C2 at the state [oneAdmitted], cap 4. *)
Lemma in_flight_within_cap_witness :
  MAX_CONCURRENT_CHECKS testMode = Int 4 ∧ (0 ≤ 4)%Z ∧
  reachable testMode oneAdmitted ∧
  (Z.of_nat (length (suspended oneAdmitted)) ≤ 4)%Z ∧
  (activeChecks oneAdmitted ≤ 4)%Z.
Proof.
  split_and!; [reflexivity|lia|apply oneAdmitted_reachable| |];
    apply (in_flight_within_cap testMode 4 oneAdmitted eq_refl ltac:(lia)
             oneAdmitted_reachable).
Defined.

(** C3 on a run of three notifications for one address, at 100 s, 110 s
    and 140 s, window 30 s: the second is dropped. *)
Lemma debounce_one_query_per_window_witness :
  USER_DEBOUNCE_SECONDS testMode = Int 30 ∧ (0 ≤ 30)%Z ∧
  Forall (λ ev, clock ev ≠ Some 0%Z)
    [UserEvent "0xab01" 100; Settled "0xab01" Rejected;
     UserEvent "0xab01" 110; UserEvent "0xab01" 140] ∧
  ∃ s effs,
    exec testMode
      [UserEvent "0xab01" 100; Settled "0xab01" Rejected;
       UserEvent "0xab01" 110; UserEvent "0xab01" 140] initial
      = Some (s, effs) ∧
    effs = [Query "0xab01" 100; LogError; Query "0xab01" 140] ∧
    spaced 30 effs.
Proof.
  assert (Forall (λ ev, clock ev ≠ Some 0%Z)
            [UserEvent "0xab01" 100; Settled "0xab01" Rejected;
             UserEvent "0xab01" 110; UserEvent "0xab01" 140]) as Hcl.
  { repeat constructor; simpl; congruence. }
  split_and!; [reflexivity|lia|exact Hcl|].
  eexists _, _. split; [vm_compute; reflexivity|]. split; [reflexivity|].
  match goal with |- spaced 30 ?effs =>
    destruct (debounce_one_query_per_window testMode 30 eq_refl ltac:(lia)
                _ _ effs Hcl eq_refl) as [H _]
  end.
  exact H.
Defined.

(** C4 at the state [oneAdmitted]. *)
Lemma one_query_per_address_witness :
  reachable testMode oneAdmitted ∧
  NoDup (suspended oneAdmitted) ∧
  checkUserHealth testMode 200 "0xab01" oneAdmitted = (oneAdmitted, []).
Proof.
  split; [apply oneAdmitted_reachable|].
  destruct (one_query_per_address testMode oneAdmitted oneAdmitted_reachable)
    as (Hnd & _ & Hdrop & _).
  split; [exact Hnd|]. apply Hdrop. vm_compute. reflexivity.
Defined.

(** C10 at the state [oneAdmitted]. *)
Lemma counter_is_size_of_in_flight_set_witness :
  reachable testMode oneAdmitted ∧
  activeChecks oneAdmitted = Z.of_nat (size (activeUsers oneAdmitted)).
Proof.
  split; [apply oneAdmitted_reachable|].
  apply (counter_is_size_of_in_flight_set testMode oneAdmitted
           oneAdmitted_reachable).
Defined.

End SchedulerExamples.

(** * Properties of the provider pool *)

Section Failover.

Import Pool.

Context (urls : list string).

Lemma fallback_spec (i : nat) (s : State) :
  providers s = urls → (i < length urls)%nat →
  fallback i s =
    if decide (i = 0)%nat
    then (if decide (2 ≤ length urls)%nat then Some 1%nat else None)
    else Some 0%nat.
Proof.
  intros Hp Hi. unfold fallback. rewrite Hp.
  destruct (length urls) as [|[|n]]; [lia| |].
  - assert (i = 0)%nat as -> by lia. reflexivity.
  - destruct i as [|i]; reflexivity.
Qed.

Lemma startup_poolInv : poolInv urls (startup urls).
Proof.
  split; simpl.
  - done.
  - by rewrite length_replicate.
  - intros a. destruct (length urls); simpl; [done|]. intros [= <-]. lia.
  - destruct (length urls) as [|n] eqn:Hn; simpl; [|done].
    intros _. split; [lia|]. intros i. unfold isOpen. simpl. by rewrite Hn.
Qed.

Lemma step_poolInv (sig : Signal) (s s' : State) :
  poolInv urls s → step sig s = Some s' → poolInv urls s'.
Proof.
  intros [Hp Hl Hs Hn]. unfold step.
  destruct (decide _) as [Hlt|]; [|done]. intros [= <-].
  rewrite Hp in Hlt.
  destruct sig as [i|i|i]; simpl in Hlt; split; simpl;
    rewrite ?length_insert; try done.
  - destruct (activeProvider s) as [a|] eqn:Ha; intros b [= <-]; auto.
  - by destruct (activeProvider s).
  - rewrite (fallback_spec i s Hp Hlt). intros a.
    repeat case_decide; intros [= <-]; lia.
  - rewrite (fallback_spec i s Hp Hlt).
    repeat case_decide; try done. intros _. split; [lia|].
    intros k. unfold isOpen. simpl. subst i.
    destruct k as [|k].
    + rewrite list_lookup_insert_eq by lia. done.
    + rewrite lookup_ge_None_2; [done|]. rewrite length_insert. lia.
  - intros Hnone. destruct (Hn Hnone) as [Hle Hno]. split; [done|].
    intros k. unfold isOpen. simpl.
    destruct (decide (k = i)) as [->|Hne].
    + rewrite list_lookup_insert_eq by lia. done.
    + rewrite list_lookup_insert_ne by done. apply Hno.
Qed.

Lemma run_poolInv (sigs : list Signal) (s s' : State) :
  poolInv urls s → run sigs s = Some s' → poolInv urls s'.
Proof.
  revert s. induction sigs as [|sig sigs IH]; simpl; intros s Hs Hrun.
  - by injection Hrun as <-.
  - destruct (step sig s) as [s1|] eqn:Hstep; [|done].
    eauto using step_poolInv.
Qed.

Lemma step_subscriptions (sig : Signal) (s s' : State) :
  step sig s = Some s' → subscriptions s' = subscriptions s.
Proof.
  unfold step. destruct (decide _); [|done]. intros [= <-].
  by destruct sig.
Qed.

Lemma run_subscriptions (sigs : list Signal) (s s' : State) :
  run sigs s = Some s' → subscriptions s' = subscriptions s.
Proof.
  revert s. induction sigs as [|sig sigs IH]; simpl; intros s Hrun.
  - by injection Hrun as <-.
  - destruct (step sig s) as [s1|] eqn:Hstep; [|done].
    rewrite (IH s1 Hrun). by eapply step_subscriptions.
Qed.

(** C5 (amended).  After any signals since start-up: when some socket is
    open, exactly one provider is active (the reference holds one of the
    providers); with two or more providers the reference is never empty,
    whatever the sockets' states; a close signal of provider [i], active
    or not, makes the first provider other than [i] active, whatever the
    state of its socket, and empties the reference only when [i] is the
    sole provider; an open signal makes its provider active only when the
    reference is empty; an error signal leaves the reference as it is. *)
Theorem active_provider_follows_position (sigs : list Signal) (s : State) :
  run sigs (startup urls) = Some s →
  ((∃ i, isOpen s i) →
   ∃ a, activeProvider s = Some a ∧ (a < length urls)%nat) ∧
  ((2 ≤ length urls)%nat → is_Some (activeProvider s)) ∧
  (∀ i s', step (WsClose i) s = Some s' →
     activeProvider s' =
       if decide (i = 0)%nat
       then (if decide (2 ≤ length urls)%nat then Some 1%nat else None)
       else Some 0%nat) ∧
  (∀ i s', step (WsOpen i) s = Some s' →
     activeProvider s' =
       match activeProvider s with
       | None => Some i
       | Some a => Some a
       end) ∧
  (∀ i s', step (WsError i) s = Some s' →
     activeProvider s' = activeProvider s).
Proof.
  intros Hrun.
  destruct (run_poolInv sigs _ s startup_poolInv Hrun) as [Hp Hl Hs Hn].
  split_and!.
  - intros [i Hi]. destruct (activeProvider s) as [a|] eqn:Ha.
    + exists a. auto.
    + destruct (Hn eq_refl) as [_ Hno]. by destruct (Hno i).
  - intros Hlen. destruct (activeProvider s) as [a|] eqn:Ha; [done|].
    destruct (Hn eq_refl). lia.
  - intros i s'. unfold step. destruct (decide _) as [Hlt|]; [|done].
    intros [= <-]. simpl in *. rewrite Hp in Hlt.
    by apply fallback_spec.
  - intros i s'. unfold step. destruct (decide _); [|done].
    by intros [= <-].
  - intros i s'. unfold step. destruct (decide _); [|done].
    by intros [= <-].
Qed.

(** C6 (amended).  After any signals since start-up the listeners are the
    ones registered at start-up: the five pool events on every provider at
    once and the two transaction streams on the Alchemy client; no signal,
    a promotion included, registers or removes a listener. *)
Theorem listeners_fixed_at_startup (sigs : list Signal) (s : State) :
  run sigs (startup urls) = Some s →
  subscriptions s = subscriptions (startup urls) ∧
  (∀ i t, (Provider i, t) ∈ subscriptions s ↔
          (i < length urls)%nat ∧
          t ∈ [Borrow; Repay; Deposit; Withdraw; LiquidationCall]) ∧
  (∀ t, (AlchemyWs, t) ∈ subscriptions s ↔
        t ∈ [PendingTransactions; MinedTransactions]) ∧
  (∀ sig s', step sig s = Some s' → subscriptions s' = subscriptions s).
Proof.
  intros Hrun. pose proof (run_subscriptions sigs _ s Hrun) as Hsub.
  split_and!; [done| | |].
  - intros i t. rewrite Hsub. simpl.
    rewrite elem_of_app, list_elem_of_In, in_flat_map.
    unfold poolListeners, alchemyListeners.
    setoid_rewrite <- list_elem_of_In. setoid_rewrite elem_of_seq.
    rewrite !elem_of_cons, !elem_of_nil. split.
    + intros [(j & Hj & Hin)|Hin].
      * rewrite !elem_of_cons, elem_of_nil in Hin.
        destruct Hin as [H|[H|[H|[H|[H|[]]]]]]; injection H as -> ->;
          (split; [lia|tauto]).
      * destruct Hin as [H|[H|[]]]; discriminate H.
    + intros [Hi Ht]. left. exists i. split; [lia|].
      rewrite !elem_of_cons, elem_of_nil.
      destruct Ht as [->|[->|[->|[->|[->|[]]]]]]; tauto.
  - intros t. rewrite Hsub. simpl.
    rewrite elem_of_app, list_elem_of_In, in_flat_map.
    unfold poolListeners, alchemyListeners.
    setoid_rewrite <- list_elem_of_In.
    rewrite !elem_of_cons, !elem_of_nil. split.
    + intros [(j & Hj & Hin)|Hin].
      * rewrite !elem_of_cons, elem_of_nil in Hin.
        destruct Hin as [H|[H|[H|[H|[H|[]]]]]]; discriminate H.
      * destruct Hin as [H|[H|[]]]; injection H as ->; tauto.
    + intros [->|[->|[]]]; tauto.
  - intros sig s' Hstep. by apply (step_subscriptions sig).
Qed.

End Failover.

Section FailoverExamples.

Import Pool.

(** C5, as stated, fails: with two providers, both open and then both
    closed, every socket is closed and the reference still holds a
    provider, the first one, promoted by the second close signal while its
    own socket was closed. *)
Lemma active_provider_kept_when_all_closed :
  ∃ s1 s,
    run [WsOpen 0; WsOpen 1; WsClose 0] (startup twoUrls) = Some s1 ∧
    lifecycle s1 !! 0%nat = Some Closed ∧
    step (WsClose 1) s1 = Some s ∧
    allDown s ∧
    activeProvider s = Some 0%nat.
Proof.
  eexists _, _. split_and!; try (vm_compute; reflexivity).
  intros [|[|i]] st; vm_compute; intros [= <-]; auto.
Qed.

(** C5 (amended) on the same run. *)
Lemma active_provider_follows_position_witness :
  ∃ s,
    run [WsOpen 0; WsOpen 1; WsClose 0] (startup twoUrls) = Some s ∧
    is_Some (activeProvider s).
Proof.
  eexists. split; [vm_compute; reflexivity|].
  match goal with |- is_Some (activeProvider ?s) =>
    destruct (active_provider_follows_position twoUrls
                [WsOpen 0; WsOpen 1; WsClose 0] s eq_refl) as (_ & H & _)
  end.
  apply H. simpl. lia.
Defined.

(** C6, as stated, fails: after the close signal of the first provider
    promotes the second, the listeners are those of start-up, none was added
    for the promoted provider, and the first provider, no longer active,
    and the Alchemy client, which is no provider, still hold theirs. *)
Lemma listeners_on_every_provider_after_failover :
  ∃ s,
    run [WsOpen 0; WsOpen 1; WsClose 0] (startup twoUrls) = Some s ∧
    activeProvider (startup twoUrls) = Some 0%nat ∧
    activeProvider s = Some 1%nat ∧
    subscriptions s = subscriptions (startup twoUrls) ∧
    (Provider 0, Borrow) ∈ subscriptions s ∧
    (AlchemyWs, PendingTransactions) ∈ subscriptions s.
Proof.
  eexists. split_and!; try (vm_compute; reflexivity).
  all: cbn;
    repeat first [apply list_elem_of_here|apply list_elem_of_further].
Qed.

(** C6 (amended) on the same run. *)
Lemma listeners_fixed_at_startup_witness :
  ∃ s,
    run [WsOpen 0; WsOpen 1; WsClose 0] (startup twoUrls) = Some s ∧
    subscriptions s = subscriptions (startup twoUrls).
Proof.
  eexists. split; [vm_compute; reflexivity|].
  match goal with |- subscriptions ?s = _ =>
    destruct (listeners_fixed_at_startup twoUrls
                [WsOpen 0; WsOpen 1; WsClose 0] s eq_refl) as [H _]
  end.
  exact H.
Defined.

End FailoverExamples.

(** * Properties of the alert queue *)

Section Dispatcher.

Import Alert.

Lemma processQueue_oneSender (t : Z) (s : State) :
  oneSender s → oneSender (processQueue t s).1.
Proof.
  intros Hs. unfold processQueue.
  destruct (bot s) eqn:Hbot; simpl; [|done].
  destruct (sending s) eqn:Hsend; simpl; [done|].
  destruct (ALERT_QUEUE s) as [|item rest]; simpl; [done|].
  destruct Hs as [(Hsn & _)|(_ & Hfl)]; [congruence|].
  left. simpl. rewrite Hfl. eauto.
Qed.

Lemma step_oneSender (ev : Event) (s s' : State) (log : list Log) :
  oneSender s → step ev s = Some (s', log) → oneSender s'.
Proof.
  intros Hs Hstep. destruct ev as [t msg|t k ok|t k]; simpl in Hstep.
  - injection Hstep as Hst. unfold sendAlert in Hst.
    destruct (bot s) eqn:Hbot; simpl in Hst.
    + match type of Hst with processQueue _ ?x = _ =>
        pose proof (processQueue_oneSender t x) as H end.
      rewrite Hst in H. apply H. unfold oneSender in *. simpl.
      by rewrite Hbot in Hs.
    + by injection Hst as <- _.
  - unfold finish in Hstep.
    destruct (inFlight s !! k) as [item|] eqn:Hk; [|done].
    injection Hstep as <- _. right. simpl. split; [done|].
    destruct Hs as [(_ & _ & it & Hfl)|(_ & Hfl)]; rewrite Hfl in *.
    + by destruct k.
    + done.
  - unfold timeout in Hstep.
    destruct (timers s !! k) as [due|]; [|done].
    destruct (due <=? t)%Z; [|done].
    injection Hstep as Hst.
    match type of Hst with processQueue _ ?x = _ =>
      pose proof (processQueue_oneSender t x) as H end.
    rewrite Hst in H. apply H. exact Hs.
Qed.

Lemma exec_oneSender (evs : list Event) (s s' : State) (log : list Log) :
  oneSender s → exec evs s = Some (s', log) → oneSender s'.
Proof.
  revert s log. induction evs as [|ev evs IH]; simpl; intros s log Hs He.
  - by injection He as <- _.
  - destruct (step ev s) as [[s1 l1]|] eqn:Hstep; [|done].
    destruct (exec evs s1) as [[s2 l2]|] eqn:Hrest; [|done].
    injection He as <- _. eauto using step_oneSender.
Qed.

Lemma attempts_app (l1 l2 : list Log) :
  attempts (l1 ++ l2) = attempts l1 ++ attempts l2.
Proof. unfold attempts. apply omap_app. Qed.

Lemma processQueue_fifo (t : Z) (s : State) :
  attempts (processQueue t s).2 ++ ALERT_QUEUE (processQueue t s).1
    = ALERT_QUEUE s ∧
  bot (processQueue t s).1 = bot s.
Proof.
  unfold processQueue.
  destruct (negb (bot s) || sending s); simpl; [auto|].
  destruct (ALERT_QUEUE s) eqn:Hq; simpl; rewrite ?Hq; auto.
Qed.

(** What one run hands to [bot.sendMessage], followed by what it leaves in
    the queue, is the queue it found followed by what it was given. *)
Lemma step_fifo (ev : Event) (s s' : State) (log : list Log) :
  bot s = true → step ev s = Some (s', log) →
  attempts log ++ ALERT_QUEUE s' = ALERT_QUEUE s ++ enqueued [ev] ∧
  bot s' = true.
Proof.
  intros Hbot Hstep. destruct ev as [t msg|t k ok|t k]; simpl in Hstep.
  - injection Hstep as Hst. unfold sendAlert in Hst.
    rewrite Hbot in Hst. simpl in Hst.
    match type of Hst with processQueue _ ?x = _ =>
      pose proof (processQueue_fifo t x) as [H1 H2] end.
    rewrite Hst in H1, H2. simpl in *. by rewrite H1, H2.
  - unfold finish in Hstep.
    destruct (inFlight s !! k) as [item|]; [|done].
    injection Hstep as <- <-. simpl. rewrite app_nil_r.
    split; [|done]. by destruct ok.
  - unfold timeout in Hstep.
    destruct (timers s !! k) as [due|]; [|done].
    destruct (due <=? t)%Z; [|done].
    injection Hstep as Hst.
    match type of Hst with processQueue _ ?x = _ =>
      pose proof (processQueue_fifo t x) as [H1 H2] end.
    rewrite Hst in H1, H2. simpl in *. by rewrite H1, H2, app_nil_r.
Qed.

Lemma exec_fifo (evs : list Event) (s s' : State) (log : list Log) :
  bot s = true → exec evs s = Some (s', log) →
  attempts log ++ ALERT_QUEUE s' = ALERT_QUEUE s ++ enqueued evs ∧
  bot s' = true.
Proof.
  revert s log. induction evs as [|ev evs IH]; simpl; intros s log Hbot He.
  - injection He as <- <-. simpl. by rewrite app_nil_r.
  - destruct (step ev s) as [[s1 l1]|] eqn:Hstep; [|done].
    destruct (exec evs s1) as [[s2 l2]|] eqn:Hrest; [|done].
    injection He as <- <-.
    destruct (step_fifo ev s s1 l1 Hbot Hstep) as [H1 Hb1].
    destruct (IH s1 l2 Hb1 Hrest) as [H2 Hb2]. split; [|done].
    rewrite attempts_app, <- app_assoc, H2, app_assoc, H1, <- app_assoc.
    f_equal. unfold enqueued. simpl. by destruct ev.
Qed.

Lemma exec_unconfigured (evs : list Event) (s s' : State) (log : list Log) :
  bot s = false → inFlight s = [] → timers s = [] →
  exec evs s = Some (s', log) →
  s' = s ∧ log = ConsoleAlert ∘ message <$> enqueued evs.
Proof.
  revert s log. induction evs as [|ev evs IH]; simpl;
    intros s log Hbot Hfl Htm He.
  - by injection He as <- <-.
  - destruct (step ev s) as [[s1 l1]|] eqn:Hstep; [|done].
    destruct (exec evs s1) as [[s2 l2]|] eqn:Hrest; [|done].
    injection He as <- <-.
    destruct ev as [t msg|t k ok|t k]; simpl in Hstep.
    + unfold sendAlert in Hstep. rewrite Hbot in Hstep. simpl in Hstep.
      injection Hstep as <- <-.
      destruct (IH s l2 Hbot Hfl Htm Hrest) as [-> ->]. done.
    + unfold finish in Hstep. by rewrite Hfl in Hstep.
    + unfold timeout in Hstep. by rewrite Htm in Hstep.
Qed.

End Dispatcher.

Section Delivery.

Import Alert.

(** C8.  In every run of a dispatcher since start-up: if the bot exists,
    what was handed to [bot.sendMessage] followed by what waits in the
    queue is exactly what was enqueued, in that order, so no message is
    handed over twice, whatever the outcomes; a delivery that fails logs
    the error, hands nothing to [bot.sendMessage], leaves the queue as it
    was and clears [sending]; if messages wait, it arms the timer, and the
    timer, when it fires, hands over the first of them.  If the bot does
    not exist, the state never changes (the queue stays empty) and the log
    is one console line per message passed to [sendAlert]. *)
Theorem failed_delivery_dropped_and_console_fallback (configured : bool)
    (evs : list Event) (s : State) (log : list Log) :
  exec evs (startup configured) = Some (s, log) →
  (configured = true →
   attempts log ++ ALERT_QUEUE s = enqueued evs) ∧
  (∀ t k s' log',
     finish t k false s = Some (s', log') →
     ∃ item,
       inFlight s !! k = Some item ∧
       log' = [Finished t item false; ConsoleError item] ∧
       attempts log' = [] ∧
       ALERT_QUEUE s' = ALERT_QUEUE s ∧
       sending s' = false ∧
       ∀ next rest,
         ALERT_QUEUE s = next :: rest →
         timers s' = timers s ++ [(t + TELEGRAM_INTERVAL_MS)%Z] ∧
         ∃ s'',
           timeout (t + TELEGRAM_INTERVAL_MS) (length (timers s)) s'
             = Some (s'', [SendMessage (t + TELEGRAM_INTERVAL_MS) next]) ∧
           ALERT_QUEUE s'' = rest) ∧
  (configured = false →
   s = startup false ∧
   ALERT_QUEUE s = [] ∧
   log = ConsoleAlert ∘ message <$> enqueued evs ∧
   ∀ t msg, sendAlert t msg s = (s, [ConsoleAlert (t, msg)])).
Proof.
  intros He. split_and!.
  - intros ->.
    by destruct (exec_fifo evs (startup true) s log eq_refl He) as [-> _].
  - intros t k s' log' Hfin. unfold finish in Hfin.
    destruct (inFlight s !! k) as [item|] eqn:Hk; [|done].
    injection Hfin as <- <-. exists item. split_and!; try done.
    intros next rest Hq. simpl. rewrite Hq. split; [done|].
    assert (bot s = true) as Hbot.
    { assert (oneSender s) as Hone.
      { eapply exec_oneSender; [|done]. by right. }
      destruct Hone as [(_ & Hb & _)|(_ & Hfl)]; [done|].
      by rewrite Hfl in Hk. }
    unfold timeout. simpl.
    rewrite lookup_app_r, Nat.sub_diag by lia. simpl.
    rewrite Z.leb_refl. unfold processQueue. simpl. rewrite Hbot. simpl.
    eexists. split; reflexivity.
  - intros ->.
    destruct (exec_unconfigured evs (startup false) s log
                eq_refl eq_refl eq_refl He)
      as [-> ->].
    done.
Qed.

(** At most one delivery is in flight in every state a dispatcher
    reaches, and [sending] is set exactly while one is. *)
Theorem at_most_one_delivery_in_flight (configured : bool)
    (evs : list Event) (s : State) (log : list Log) :
  exec evs (startup configured) = Some (s, log) →
  (length (inFlight s) ≤ 1)%nat ∧
  (sending s = true ↔ inFlight s ≠ []).
Proof.
  intros He. assert (oneSender s) as Hone.
  { eapply exec_oneSender; [|done]. by right. }
  destruct Hone as [(-> & _ & item & ->)|(-> & ->)]; simpl.
  - split; [lia|]. done.
  - split; [lia|]. split; done.
Qed.

(** Messages go to [bot.sendMessage] in the order of their enqueue: what
    was handed over is a prefix of what was enqueued, and the queue is the
    rest. *)
Theorem delivery_order_is_enqueue_order (evs : list Event) (s : State)
    (log : list Log) :
  exec evs (startup true) = Some (s, log) →
  attempts log ++ ALERT_QUEUE s = enqueued evs ∧
  attempts log `prefix_of` enqueued evs.
Proof.
  intros He.
  destruct (exec_fifo evs (startup true) s log eq_refl He) as [Heq _].
  simpl in Heq. split; [done|]. exists (ALERT_QUEUE s). done.
Qed.

End Delivery.

Section DeliveryExamples.

Import Alert.

(** C7: the spacing is kept only by the timer that [finally] arms; a call of
    [sendAlert] runs [processQueue] at once.  First run: a delivery ends at
    50 ms with the queue empty, a message enqueued at 100 ms is handed over
    at 100 ms, 50 ms after the end of the last attempt.  Second run: the
    delivery ends at 50 ms with a message waiting, the timer is armed for
    1050 ms, and a message enqueued at 100 ms makes the waiting one go at
    100 ms. *)
Lemma enqueue_starts_delivery_within_interval :
  snd <$> exec [Enqueue 0 "a"; Settle 50 0 true; Enqueue 100 "b"]
               (startup true)
    = Some [SendMessage 0 {| message := (0%Z, "a") |};
            Finished 50 {| message := (0%Z, "a") |} true;
            SendMessage 100 {| message := (100%Z, "b") |}] ∧
  snd <$> exec [Enqueue 0 "a"; Enqueue 10 "b"; Settle 50 0 true;
                Enqueue 100 "c"] (startup true)
    = Some [SendMessage 0 {| message := (0%Z, "a") |};
            Finished 50 {| message := (0%Z, "a") |} true;
            SendMessage 100 {| message := (10%Z, "b") |}] ∧
  (100 - 50 < TELEGRAM_INTERVAL_MS)%Z.
Proof. split_and!; vm_compute; reflexivity. Qed.

(** C8 on a run where the first of two deliveries fails. *)
Lemma failed_delivery_dropped_and_console_fallback_witness :
  ∃ s log,
    exec [Enqueue 0 "a"; Enqueue 10 "b"; Settle 50 0 false; Timer 1050 0]
         (startup true) = Some (s, log) ∧
    attempts log
      = [{| message := (0%Z, "a") |}; {| message := (10%Z, "b") |}] ∧
    attempts log ++ ALERT_QUEUE s
      = enqueued [Enqueue 0 "a"; Enqueue 10 "b"; Settle 50 0 false;
                  Timer 1050 0].
Proof.
  eexists _, _. split; [vm_compute; reflexivity|].
  split; [vm_compute; reflexivity|].
  match goal with |- attempts ?log ++ ALERT_QUEUE ?s = _ =>
    destruct (failed_delivery_dropped_and_console_fallback true
                [Enqueue 0 "a"; Enqueue 10 "b"; Settle 50 0 false;
                 Timer 1050 0] s log eq_refl) as [H _]
  end.
  by apply H.
Defined.

(** Three messages enqueued at once: one is in flight, two wait. *)
Lemma at_most_one_delivery_in_flight_witness :
  ∃ s log,
    exec [Enqueue 0 "a"; Enqueue 10 "b"; Enqueue 20 "c"] (startup true)
      = Some (s, log) ∧
    (length (inFlight s) ≤ 1)%nat.
Proof.
  eexists _, _. split; [vm_compute; reflexivity|].
  match goal with |- (length (inFlight ?s) ≤ 1)%nat =>
    destruct (at_most_one_delivery_in_flight true
                [Enqueue 0 "a"; Enqueue 10 "b"; Enqueue 20 "c"] s _ eq_refl)
      as [H _]
  end.
  exact H.
Defined.

(** Two messages, the second sent by the timer: the order is kept. *)
Lemma delivery_order_is_enqueue_order_witness :
  ∃ s log,
    exec [Enqueue 0 "a"; Enqueue 10 "b"; Settle 50 0 true; Timer 1060 0]
         (startup true) = Some (s, log) ∧
    attempts log `prefix_of`
      enqueued [Enqueue 0 "a"; Enqueue 10 "b"; Settle 50 0 true;
                Timer 1060 0].
Proof.
  eexists _, _. split; [vm_compute; reflexivity|].
  match goal with |- attempts ?log `prefix_of` _ =>
    destruct (delivery_order_is_enqueue_order
                [Enqueue 0 "a"; Enqueue 10 "b"; Settle 50 0 true;
                 Timer 1060 0] _ log eq_refl) as [_ H]
  end.
  exact H.
Defined.

End DeliveryExamples.

(** * Further properties of the scheduler *)

Section Alerts.

Import Watcher.

Context (cfg : Config).

Lemma settle_effects (user : string) (o : Outcome) (s : State)
    (e : Effect) :
  e ∈ (settle cfg user o s).2 →
  e = LogError ∨
  ∃ hf, (e = LogFlashloan user hf ∧ TEST_MODE cfg = false ∨
         (e = LogAlert user hf ∨ e = SendAlert user hf) ∧
         TEST_MODE cfg = true) ∧
        PrimFloat.leb hf (HF_THRESHOLD cfg) = true ∧
        PrimFloat.eqb hf (lastHf s user) = false ∧
        ∃ r, o = Resolved r ∧ hf = parseHealthFactor r.
Proof.
  unfold settle, afterQuery, handleLiquidation.
  destruct o as [r|]; simpl.
  - destruct (PrimFloat.eqb _ _) eqn:Heq; simpl; [by intros ?%elem_of_nil|].
    destruct (PrimFloat.leb _ _) eqn:Hle; simpl; [|by intros ?%elem_of_nil].
    destruct (TEST_MODE cfg) eqn:Htest; simpl.
    + rewrite !elem_of_cons, elem_of_nil. intros [->|[->|[]]]; right;
        exists (parseHealthFactor r); split_and!; eauto.
    + rewrite !elem_of_cons, elem_of_nil. intros [->|[]]; right;
        exists (parseHealthFactor r); split_and!; eauto.
  - rewrite !elem_of_cons, elem_of_nil. intros [->|[]]. by left.
Qed.

Lemma justified_app_l (past effs : list Effect) :
  justified cfg past →
  (∀ j user hf,
     effs !! j = Some (SendAlert user hf) →
     TEST_MODE cfg = true ∧
     PrimFloat.leb hf (HF_THRESHOLD cfg) = true ∧
     ∃ t, Query user t ∈ past) →
  justified cfg (past ++ effs).
Proof.
  intros Hpast Hnew j user hf Hj.
  apply lookup_app_Some in Hj as [Hj|[Hlen Hj]].
  - destruct (Hpast j user hf Hj) as (Ht & Hle & i & t & Hi & Hq).
    split_and!; [done|done|]. exists i, t. split; [done|].
    apply lookup_app_l_Some. done.
  - destruct (Hnew _ user hf Hj) as (Ht & Hle & t & Hin).
    split_and!; [done|done|].
    apply list_elem_of_lookup_1 in Hin as [i Hi].
    exists i, t. apply lookup_lt_Some in Hi as Hlt.
    split; [lia|]. by apply lookup_app_l_Some.
Qed.

Lemma checkUserHealth_justified (now : Z) (user : string) (s : State)
    (past : list Effect) :
  accounted s past → justified cfg past →
  accounted (checkUserHealth cfg now user s).1
            (past ++ (checkUserHealth cfg now user s).2) ∧
  justified cfg (past ++ (checkUserHealth cfg now user s).2).
Proof.
  intros Hacc Hj.
  destruct (checkUserHealth_cases cfg now user s); simpl;
    rewrite ?app_nil_r; try done.
  split.
  - intros u [Hu|Hu%list_elem_of_singleton]%elem_of_app; [|subst u].
    + destruct (Hacc u Hu) as [t Ht]. exists t. apply elem_of_app. by left.
    + exists now. apply elem_of_app. right. by apply list_elem_of_singleton.
  - apply justified_app_l; [done|].
    intros [|j] u hf; simpl; [done|]. by rewrite lookup_nil.
Qed.

Lemma settle_justified (user : string) (o : Outcome) (s : State)
    (past : list Effect) :
  consistent s → user ∈ suspended s →
  accounted s past → justified cfg past →
  accounted (settle cfg user o s).1 (past ++ (settle cfg user o s).2) ∧
  justified cfg (past ++ (settle cfg user o s).2).
Proof.
  intros Hs Hin Hacc Hj. split.
  - intros u Hu.
    assert (u ∈ suspended s) as Hu'.
    { unfold settle in Hu. destruct (afterQuery cfg user o s). simpl in Hu.
      apply resume_elem_of in Hu; [tauto|by destruct Hs]. }
    destruct (Hacc u Hu') as [t Ht]. exists t. apply elem_of_app. by left.
  - apply justified_app_l; [done|].
    intros j u hf Hl. apply list_elem_of_lookup_2 in Hl.
    apply settle_effects in Hl as [|(hf' & Hcase & Hle & _)]; [done|].
    destruct Hcase as [[? _]|[[?|Heq] Ht]]; try done.
    injection Heq as -> ->. split_and!; [done|done|]. by apply Hacc.
Qed.

Lemma exec_justified (evs : list Event) (s s' : State)
    (past effs : list Effect) :
  consistent s → accounted s past → justified cfg past →
  exec cfg evs s = Some (s', effs) →
  accounted s' (past ++ effs) ∧ justified cfg (past ++ effs).
Proof.
  revert s past effs.
  induction evs as [|ev evs IH]; simpl; intros s past effs Hs Hacc Hj He.
  - injection He as <- <-. by rewrite app_nil_r.
  - destruct (step cfg ev s) as [[s1 e1]|] eqn:Hstep; [|done].
    destruct (exec cfg evs s1) as [[s2 e2]|] eqn:Hrest; [|done].
    injection He as <- <-.
    pose proof (step_consistent cfg ev s s1 e1 Hs Hstep) as Hs1.
    assert (accounted s1 (past ++ e1) ∧ justified cfg (past ++ e1))
      as [Hacc1 Hj1].
    { destruct ev as [u now|u now|u now|u o]; simpl in Hstep.
      1-3: injection Hstep as Hst;
        unfold onUserEvent, onPendingTx, fullScanVisit in Hst;
        match type of Hst with checkUserHealth _ _ ?v _ = _ =>
          pose proof (checkUserHealth_justified now v s past Hacc Hj) as H
        end;
        by rewrite Hst in H.
      destruct (decide (u ∈ suspended s)) as [Hin|]; [|done].
      injection Hstep as Hst.
      pose proof (settle_justified u o s past Hs Hin Hacc Hj) as H.
      by rewrite Hst in H. }
    rewrite app_assoc. eauto.
Qed.

(** X4.  In every run from start-up, every alert in the log was sent in test
    mode, carries a metric that is at most the threshold, and comes after
    a query for the same address. *)
Theorem alerts_follow_queries_at_risk (evs : list Event) (s : State)
    (effs : list Effect) :
  exec cfg evs initial = Some (s, effs) → justified cfg effs.
Proof.
  intros He.
  eapply (exec_justified evs initial s [] effs); [| | |done].
  - apply initial_consistent.
  - intros u Hu. by apply elem_of_nil in Hu.
  - intros j u hf Hl. by rewrite lookup_nil in Hl.
Qed.

End Alerts.

Section Results.

Import Watcher.

Context (cfg : Config).

Lemma checkUserHealth_cache (now : Z) (user : string) (s : State) :
  userHealthCache (checkUserHealth cfg now user s).1 = userHealthCache s.
Proof. by destruct (checkUserHealth_cases cfg now user s). Qed.

Lemma step_cache_frame (user : string) (ev : Event) (s s' : State)
    (effs : list Effect) :
  resolves user ev = false → step cfg ev s = Some (s', effs) →
  lastHf s' user = lastHf s user.
Proof.
  intros Hres Hstep. unfold lastHf.
  destruct ev as [u now|u now|u now|u o]; simpl in Hstep.
  1-3: injection Hstep as Hst;
    unfold onUserEvent, onPendingTx, fullScanVisit in Hst;
    match type of Hst with checkUserHealth _ _ ?v _ = _ =>
      pose proof (checkUserHealth_cache now v s) as H
    end;
    rewrite Hst in H; simpl in H; by rewrite H.
  destruct (decide (u ∈ suspended s)); [|done].
  injection Hstep as Hst. unfold settle, afterQuery in Hst.
  destruct o as [r|]; simpl in *.
  - apply bool_decide_eq_false in Hres.
    destruct (PrimFloat.eqb _ _); injection Hst as <- _; simpl; [done|].
    by rewrite lookup_insert_ne.
  - by injection Hst as <- _.
Qed.

Lemma exec_cache_frame (user : string) (evs : list Event) (s s' : State)
    (effs : list Effect) :
  Forall (λ ev, resolves user ev = false) evs →
  exec cfg evs s = Some (s', effs) →
  lastHf s' user = lastHf s user.
Proof.
  revert s effs. induction evs as [|ev evs IH]; simpl; intros s effs Hall He.
  - by injection He as <- _.
  - apply Forall_cons in Hall as [Hev Hall].
    destruct (step cfg ev s) as [[s1 e1]|] eqn:Hstep; [|done].
    destruct (exec cfg evs s1) as [[s2 e2]|] eqn:Hrest; [|done].
    injection He as <- _.
    rewrite (IH s1 e2 Hall Hrest). by eapply step_cache_frame.
Qed.

(** X5.  After a query for an address has resolved with a metric that is a
    number (not NaN), a later query for it that resolves with the same
    metric has no effect at all, no alert and no log line, whatever runs
    lie between, as long as none of them resolves a query for that
    address. *)
Theorem unchanged_metric_has_no_effect (user : string) (r : option float)
    (s s1 : State) (evs : list Event) (effs : list Effect) :
  PrimFloat.eqb (parseHealthFactor r) (parseHealthFactor r) = true →
  Forall (λ ev, resolves user ev = false) evs →
  exec cfg evs (settle cfg user (Resolved r) s).1 = Some (s1, effs) →
  (settle cfg user (Resolved r) s1).2 = [] ∧
  userHealthCache (settle cfg user (Resolved r) s1).1 = userHealthCache s1.
Proof.
  intros Hnum Hall He.
  pose proof (exec_cache_frame user evs _ s1 effs Hall He) as Hframe.
  assert (PrimFloat.eqb (parseHealthFactor r) (lastHf s1 user) = true)
    as Heq.
  { rewrite Hframe. unfold settle, afterQuery. simpl.
    destruct (PrimFloat.eqb (parseHealthFactor r) (lastHf s user)) eqn:Hold;
      simpl; [done|].
    unfold lastHf. simpl. by rewrite lookup_insert_eq. }
  unfold settle, afterQuery. simpl. by rewrite Heq.
Qed.

(** X6.  A query that fails releases its slot and writes no metric, and the
    clock reading of its call stays on record: with a window of [w]
    seconds, the next call for the address is dropped while less than [w]
    seconds have passed, and issues a new query once [w] seconds have. *)
Theorem failed_query_costs_one_window (w now : Z) (user : string)
    (s s1 : State) :
  USER_DEBOUNCE_SECONDS cfg = Int w → now ≠ 0%Z →
  checkUserHealth cfg now user s = (s1, [Query user now]) →
  (settle cfg user Rejected s1).2 = [LogError] ∧
  userHealthCache (settle cfg user Rejected s1).1 = userHealthCache s ∧
  activeChecks (settle cfg user Rejected s1).1 = activeChecks s ∧
  activeUsers (settle cfg user Rejected s1).1 = activeUsers s ∧
  (∀ t, (t - now < w)%Z →
        checkUserHealth cfg t user (settle cfg user Rejected s1).1
          = ((settle cfg user Rejected s1).1, [])) ∧
  (∀ t, (w ≤ t - now)%Z →
        (checkUserHealth cfg t user (settle cfg user Rejected s1).1).2
          = [Query user t]).
Proof.
  intros Hw Hnow Hcall.
  destruct (checkUserHealth_cases cfg now user s) as [| | |Hout Hskip Hcap];
    try discriminate Hcall.
  injection Hcall as <-. unfold settle, afterQuery. simpl.
  assert (({[user]} ∪ activeUsers s) ∖ {[user]} = activeUsers s) as Hset
    by set_solver.
  split_and!; [done|done|lia|done| |].
  - intros t Hlt. unfold checkUserHealth, shouldSkipUser. simpl.
    rewrite Hset. destruct (decide (user ∈ activeUsers s)); [done|].
    rewrite lookup_insert_eq, Hw. destruct (Z.eqb_spec now 0); [done|].
    simpl. by apply Z.ltb_lt in Hlt as ->.
  - intros t Hge. unfold checkUserHealth, shouldSkipUser. simpl.
    rewrite Hset. destruct (decide (user ∈ activeUsers s)); [done|].
    rewrite lookup_insert_eq, Hw. destruct (Z.eqb_spec now 0); [done|].
    simpl. apply Z.ltb_ge in Hge as ->.
    replace (activeChecks s + 1 - 1)%Z with (activeChecks s) by lia.
    by rewrite Hcap.
Qed.

Lemma settles_cons (ev : Event) (evs : list Event) :
  settles (ev :: evs) = ((if isSettled ev then 1 else 0) + settles evs)%nat.
Proof.
  unfold settles. rewrite filter_cons.
  destruct (isSettled ev) eqn:Hs; case_decide; simpl; congruence.
Qed.

Lemma queries_app (l1 l2 : list Effect) :
  queries (l1 ++ l2) = queries l1 ++ queries l2.
Proof. apply omap_app. Qed.

Lemma alerts_app (l1 l2 : list Effect) :
  alerts (l1 ++ l2) = alerts l1 ++ alerts l2.
Proof. apply omap_app. Qed.

Lemma settle_counts (user : string) (o : Outcome) (s : State) :
  queries (settle cfg user o s).2 = [] ∧
  (length (alerts (settle cfg user o s).2) ≤ 1)%nat.
Proof.
  unfold settle, afterQuery, handleLiquidation, queries, alerts.
  destruct o as [r|]; simpl; [|split; [done|cbn; lia]].
  repeat case_match; simplify_eq; cbn; split; (done || lia).
Qed.

Lemma step_counts (ev : Event) (s s' : State) (effs : list Effect) :
  consistent s → step cfg ev s = Some (s', effs) →
  (length (queries effs) + length (suspended s)
   = (if isSettled ev then 1 else 0) + length (suspended s'))%nat ∧
  (length (alerts effs) ≤ (if isSettled ev then 1 else 0))%nat.
Proof.
  intros Hs Hstep. destruct ev as [u now|u now|u now|u o]; simpl in *.
  1-3: injection Hstep as Hst;
    unfold onUserEvent, onPendingTx, fullScanVisit in Hst;
    match type of Hst with checkUserHealth _ _ ?v _ = _ =>
      destruct (checkUserHealth_cases cfg now v s)
    end;
    injection Hst as <- <-; simpl; rewrite ?length_app; simpl; lia.
  destruct (decide (u ∈ suspended s)) as [Hin|]; [|done].
  injection Hstep as Hst.
  destruct (settle_counts u o s) as [Hq Ha]. rewrite Hst in Hq, Ha.
  simpl in *. rewrite Hq. simpl. split; [|done].
  assert (suspended s' = resume u (suspended s)) as ->.
  { unfold settle in Hst. destruct (afterQuery cfg u o s).
    by injection Hst as <- _. }
  pose proof (resume_length u _ Hin). lia.
Qed.

Lemma exec_counts (evs : list Event) (s s' : State) (effs : list Effect) :
  consistent s → exec cfg evs s = Some (s', effs) →
  (length (queries effs) + length (suspended s)
   = settles evs + length (suspended s'))%nat ∧
  (length (alerts effs) ≤ settles evs)%nat.
Proof.
  revert s effs. induction evs as [|ev evs IH]; simpl; intros s effs Hs He.
  - injection He as <- <-. simpl. split; [done|lia].
  - destruct (step cfg ev s) as [[s1 e1]|] eqn:Hstep; [|done].
    destruct (exec cfg evs s1) as [[s2 e2]|] eqn:Hrest; [|done].
    injection He as <- <-.
    pose proof (step_consistent cfg ev s s1 e1 Hs Hstep) as Hs1.
    destruct (step_counts ev s s1 e1 Hs Hstep) as [H1 H2].
    destruct (IH s1 e2 Hs1 Hrest) as [H3 H4].
    rewrite queries_app, alerts_app, !length_app, settles_cons. lia.
Qed.

(** X7.  In every run from start-up, every query issued has either ended or is
    still in flight: the number of queries in the log is the number of
    runs in which a query ended plus the number of suspended calls; and
    there are at most as many alerts as queries that ended. *)
Theorem queries_are_settled_or_in_flight (evs : list Event) (s : State)
    (effs : list Effect) :
  exec cfg evs initial = Some (s, effs) →
  length (queries effs) = (settles evs + length (suspended s))%nat ∧
  Z.of_nat (length (queries effs))
    = (Z.of_nat (settles evs) + activeChecks s)%Z ∧
  (length (alerts effs) ≤ settles evs)%nat.
Proof.
  intros He.
  destruct (exec_counts evs initial s effs initial_consistent He)
    as [H1 H2].
  pose proof (exec_consistent cfg evs initial s effs initial_consistent He)
    as [Hc _ _].
  simpl in H1. split_and!; [lia|lia|done].
Qed.

End Results.

Section Slots.

Import Watcher.

Context (cfg : Config).

Lemma settle_head (u : string) (l : list string) (o : Outcome) (s : State) :
  suspended s = u :: l →
  suspended (settle cfg u o s).1 = l.
Proof.
  intros Hl. unfold settle. destruct (afterQuery cfg u o s). simpl.
  rewrite Hl. simpl. by rewrite decide_True.
Qed.

Lemma settleAll_exec (os : string → Outcome) (l : list string) (s : State) :
  suspended s = l →
  ∃ s' effs,
    exec cfg (settleAll os l) s = Some (s', effs) ∧ suspended s' = [].
Proof.
  revert s. induction l as [|u l IH]; intros s Hl.
  - by exists s, [].
  - destruct (settle cfg u (os u) s) as [s1 e1] eqn:Hst.
    destruct (IH s1) as (s' & effs & He & Hs').
    { pose proof (settle_head u l (os u) s Hl) as H. by rewrite Hst in H. }
    exists s', (e1 ++ effs). split; [|done].
    change (settleAll os (u :: l))
      with (Settled u (os u) :: settleAll os l).
    simpl. rewrite decide_True by (rewrite Hl; apply list_elem_of_here).
    by rewrite Hst, He.
Qed.

(** X8.  From every reachable state, when the queries in flight end, each
    resolved or rejected, the slots are all given back: the run is
    possible, and after it no call is suspended, the counter is 0 and
    [activeUsers] is empty. *)
Theorem all_slots_are_released (os : string → Outcome) (s : State) :
  reachable cfg s →
  ∃ s' effs,
    exec cfg (settleAll os (suspended s)) s = Some (s', effs) ∧
    suspended s' = [] ∧ activeChecks s' = 0%Z ∧ activeUsers s' = ∅.
Proof.
  intros Hr. pose proof (reachable_consistent cfg s Hr) as Hs.
  destruct (settleAll_exec os (suspended s) s eq_refl)
    as (s' & effs & He & Hnil).
  exists s', effs. split; [done|].
  destruct (exec_consistent cfg _ s s' effs Hs He) as [Hc _ Hiff].
  rewrite Hnil in Hc, Hiff. split_and!; [done|done|].
  apply set_eq. intros u. rewrite Hiff. set_solver.
Qed.

Lemma notifyAll_admitted (now : Z) (users : list string) (s : State) :
  MAX_CONCURRENT_CHECKS cfg = NaN →
  NoDup users →
  (∀ u, u ∈ users → (u ∉ activeUsers s) ∧ lastCheck s !! u = None) →
  ∃ s',
    exec cfg (notifyAll now users) s
      = Some (s', (λ u, Query u now) <$> users) ∧
    suspended s' = suspended s ++ users ∧
    activeChecks s' = (activeChecks s + Z.of_nat (length users))%Z.
Proof.
  intros Hcap. revert s.
  induction users as [|u users IH]; intros s Hnd Hfresh; simpl.
  - exists s. rewrite app_nil_r. split_and!; [done|done|lia].
  - apply NoDup_cons in Hnd as [Hu Hnd].
    destruct (Hfresh u) as [Hout Hnone]; [apply list_elem_of_here|].
    assert (onPendingTx cfg now u s
            = ({| activeChecks := activeChecks s + 1;
                  activeUsers := {[u]} ∪ activeUsers s;
                  lastCheck := <[u := now]> (lastCheck s);
                  userHealthCache := userHealthCache s;
                  suspended := suspended s ++ [u] |},
               [Query u now])) as Hadm.
    { unfold onPendingTx, checkUserHealth, shouldSkipUser.
      by rewrite decide_False, Hnone, Hcap by done. }
    edestruct (IH (onPendingTx cfg now u s).1) as (s' & He & Hsus & Hcnt);
      [done| |].
    { intros v Hv. rewrite Hadm. simpl.
      destruct (Hfresh v) as [Hvout Hvnone];
        [by apply list_elem_of_further|].
      assert (u ≠ v) by (intros ->; done).
      rewrite lookup_insert_ne by done. split; [set_solver|done]. }
    exists s'.
    change (notifyAll now (u :: users))
      with (PendingTx u now :: notifyAll now users).
    simpl. rewrite Hadm in He, Hsus, Hcnt |- *. simpl in *.
    rewrite He, Hsus, Hcnt, <- app_assoc. split_and!; [done|done|lia].
Qed.

(** X9.  When [MAX_CONCURRENT_CHECKS] does not parse ([parseInt] gives NaN)
    the test [activeChecks >= MAX_CONCURRENT_CHECKS] is never true and
    there is no cap: from start-up, notifications for any number of
    different addresses are all admitted at once. *)
Theorem unparsable_cap_is_no_cap (now : Z) (users : list string) :
  MAX_CONCURRENT_CHECKS cfg = NaN → NoDup users →
  ∃ s,
    exec cfg (notifyAll now users) initial
      = Some (s, (λ u, Query u now) <$> users) ∧
    suspended s = users ∧
    activeChecks s = Z.of_nat (length users).
Proof.
  intros Hcap Hnd.
  destruct (notifyAll_admitted now users initial Hcap Hnd)
    as (s & He & Hsus & Hcnt).
  { intros u _. split; [set_solver|apply lookup_empty]. }
  exists s. split_and!; [done|done|]. rewrite Hcnt. simpl. lia.
Qed.

(** X10.  With a cap of 0 or less nothing is ever admitted: every run from
    start-up leaves the state as it was and issues no query. *)
Theorem nonpositive_cap_admits_nothing (cap : Z) (evs : list Event)
    (s : State) (effs : list Effect) :
  MAX_CONCURRENT_CHECKS cfg = Int cap → (cap ≤ 0)%Z →
  exec cfg evs initial = Some (s, effs) →
  s = initial ∧ effs = [].
Proof.
  intros Hcap Hle. revert effs.
  induction evs as [|ev evs IH]; intros effs; simpl.
  - by intros [= <- <-].
  - assert (step cfg ev initial = Some (initial, []) ∨
            step cfg ev initial = None) as [->| ->]; [| |done].
    + destruct ev as [u now|u now|u now|u o]; simpl; [left|left|left|right].
      1-3: unfold onUserEvent, onPendingTx, fullScanVisit, checkUserHealth,
             shouldSkipUser; simpl; rewrite lookup_empty, Hcap; simpl;
           destruct (Z.leb_spec cap 0); [done|lia].
      done.
    + destruct (exec cfg evs initial) as [[s2 e2]|] eqn:Hrest; [|done].
      intros [= <- <-]. simpl. by apply IH.
Qed.

End Slots.

Section Registry.

Import Watcher.

Context (cfg : Config).

Lemma step_records (ev : Event) (s s' : State) (effs : list Effect) :
  consistent s → onRecord s → step cfg ev s = Some (s', effs) →
  onRecord s' ∧
  dom (lastCheck s) ⊆ dom (lastCheck s') ∧
  dom (userHealthCache s) ⊆ dom (userHealthCache s').
Proof.
  intros Hs [Hact Hcache] Hstep.
  destruct ev as [u now|u now|u now|u o]; simpl in Hstep.
  1-3: injection Hstep as Hst;
    unfold onUserEvent, onPendingTx, fullScanVisit in Hst;
    match type of Hst with checkUserHealth _ _ ?v _ = _ =>
      destruct (checkUserHealth_cases cfg now v s)
    end;
    injection Hst as <- _; unfold onRecord; simpl;
    rewrite ?dom_insert_L; set_solver.
  destruct (decide (u ∈ suspended s)) as [Hin|]; [|done].
  injection Hstep as Hst.
  assert (u ∈ dom (lastCheck s)) as Hu.
  { apply Hact. by apply Hs. }
  unfold settle, afterQuery in Hst.
  destruct o as [r|]; simpl in Hst.
  - destruct (PrimFloat.eqb _ _); injection Hst as <- _;
      unfold onRecord; simpl; rewrite ?dom_insert_L; set_solver.
  - injection Hst as <- _. unfold onRecord. simpl. set_solver.
Qed.

Lemma exec_records (evs : list Event) (s s' : State) (effs : list Effect) :
  consistent s → onRecord s → exec cfg evs s = Some (s', effs) →
  onRecord s' ∧
  dom (lastCheck s) ⊆ dom (lastCheck s') ∧
  dom (userHealthCache s) ⊆ dom (userHealthCache s').
Proof.
  revert s effs. induction evs as [|ev evs IH]; simpl;
    intros s effs Hs Hrec He.
  - by injection He as <- _.
  - destruct (step cfg ev s) as [[s1 e1]|] eqn:Hstep; [|done].
    destruct (exec cfg evs s1) as [[s2 e2]|] eqn:Hrest; [|done].
    injection He as <- _.
    pose proof (step_consistent cfg ev s s1 e1 Hs Hstep) as Hs1.
    destruct (step_records ev s s1 e1 Hs Hrec Hstep) as (Hrec1 & Hl1 & Hc1).
    destruct (IH s1 e2 Hs1 Hrec1 Hrest) as (Hrec2 & Hl2 & Hc2).
    split_and!; [done|set_solver|set_solver].
Qed.

(** X11.  In every reachable state every address in flight and every address
    with a cached metric has a last-check record, and no run ever removes
    a record or a cached metric: both maps only grow. *)
Theorem records_only_grow (s : State) :
  reachable cfg s →
  activeUsers s ⊆ dom (lastCheck s) ∧
  dom (userHealthCache s) ⊆ dom (lastCheck s) ∧
  (∀ evs s' effs,
     exec cfg evs s = Some (s', effs) →
     dom (lastCheck s) ⊆ dom (lastCheck s') ∧
     dom (userHealthCache s) ⊆ dom (userHealthCache s')).
Proof.
  intros Hr. pose proof (reachable_consistent cfg s Hr) as Hs.
  destruct Hr as (evs0 & effs0 & He0).
  destruct (exec_records evs0 initial s effs0 initial_consistent)
    as ([Hact Hcache] & _); [|done|].
  { split; simpl; set_solver. }
  split_and!; [done|done|].
  intros evs s' effs He.
  by destruct (exec_records evs s s' effs Hs (conj Hact Hcache) He)
    as (_ & ? & ?).
Qed.

(** X12.  The window in real time.  With a window of [w] seconds and a record
    made when the clock read [ms1] milliseconds, a call when it reads
    [ms2] is always dropped if at most [(w - 1) * 1000] ms have passed and
    never dropped by the debounce test if at least [w * 1000] ms have:
    whole seconds are compared, so the window is between [w - 1] and [w]
    seconds long. *)
Theorem debounce_window_in_milliseconds (w ms1 ms2 : Z) (user : string)
    (s : State) :
  USER_DEBOUNCE_SECONDS cfg = Int w →
  lastCheck s !! user = Some (nowSeconds ms1) →
  nowSeconds ms1 ≠ 0%Z →
  ((ms2 - ms1 ≤ (w - 1) * 1000)%Z →
   shouldSkipUser cfg (nowSeconds ms2) user s = true) ∧
  ((w * 1000 ≤ ms2 - ms1)%Z →
   shouldSkipUser cfg (nowSeconds ms2) user s = false).
Proof.
  intros Hw Hlast Hnz. unfold shouldSkipUser. rewrite Hlast, Hw.
  destruct (Z.eqb_spec (nowSeconds ms1) 0); [done|]. simpl.
  unfold nowSeconds in *. split; intros Hms.
  - apply Z.ltb_lt.
    assert (ms2 / 1000 ≤ (ms1 + (w - 1) * 1000) / 1000)%Z
      by (apply Z.div_le_mono; lia).
    rewrite Z.div_add in H by lia. lia.
  - apply Z.ltb_ge.
    assert ((ms1 + w * 1000) / 1000 ≤ ms2 / 1000)%Z
      by (apply Z.div_le_mono; lia).
    rewrite Z.div_add in H by lia. lia.
Qed.

End Registry.

Section Scan.

Import Watcher.

Context (cfg : Config).

Lemma exec_app (evs1 evs2 : list Event) (s s1 s2 : State)
    (e1 e2 : list Effect) :
  exec cfg evs1 s = Some (s1, e1) → exec cfg evs2 s1 = Some (s2, e2) →
  exec cfg (evs1 ++ evs2) s = Some (s2, e1 ++ e2).
Proof.
  revert s e1. induction evs1 as [|ev evs1 IH]; simpl; intros s e1 H1 H2.
  - by injection H1 as <- <-.
  - destruct (step cfg ev s) as [[sa ea]|] eqn:Hstep; [|done].
    destruct (exec cfg evs1 sa) as [[sb eb]|] eqn:Hrest; [|done].
    injection H1 as <- <-. rewrite (IH sa eb Hrest H2).
    by rewrite app_assoc.
Qed.

Lemma resume_snoc (user : string) (l : list string) :
  user ∉ l → resume user (l ++ [user]) = l.
Proof.
  induction l as [|v l IH]; simpl; intros Hout.
  - by rewrite decide_True.
  - rewrite decide_False by set_solver. f_equal. apply IH. set_solver.
Qed.

Lemma fullScan_exec (visits : list (string * Z * Outcome)) (s : State) :
  exec cfg (scanEvents cfg visits s) s = Some (fullScan cfg visits s).
Proof.
  revert s. induction visits as [|[[user now] o] rest IH]; intros s; [done|].
  cbn [scanEvents fullScan].
  destruct (fullScanVisit cfg now user s) as [s1 e1] eqn:Hv.
  destruct e1 as [|e e1].
  - cbn [exec step]. rewrite Hv, IH. by destruct (fullScan cfg rest s1).
  - assert (user ∈ suspended s1) as Hin.
    { unfold fullScanVisit in Hv.
      destruct (checkUserHealth_cases cfg now user s);
        injection Hv as <- ?; try done.
      simpl. rewrite elem_of_app, list_elem_of_singleton. auto. }
    cbn [exec step]. rewrite Hv. rewrite decide_True by done.
    destruct (settle cfg user o s1) as [s2 e2]. cbn [fst].
    rewrite IH. by destruct (fullScan cfg rest s2).
Qed.

Lemma fullScan_slots (visits : list (string * Z * Outcome)) (s : State) :
  consistent s →
  suspended (fullScan cfg visits s).1 = suspended s ∧
  activeChecks (fullScan cfg visits s).1 = activeChecks s ∧
  activeUsers (fullScan cfg visits s).1 = activeUsers s ∧
  (length (queries (fullScan cfg visits s).2) ≤ length visits)%nat.
Proof.
  revert s. induction visits as [|[[user now] o] rest IH]; intros s Hs.
  - simpl. split_and!; (done || lia).
  - simpl. unfold fullScanVisit.
    destruct (checkUserHealth_cases cfg now user s) as [| | |Hout _ _]; simpl.
    1-3: destruct (IH s Hs) as (G1 & G2 & G3 & G4);
         destruct (fullScan cfg rest s); simpl in *;
         split_and!; (done || lia).
    assert (user ∉ suspended s) as Hns
      by (by rewrite <- (flag_iff_suspended s Hs)).
    unfold settle at 1 2 3 4.
    destruct (afterQuery cfg user o _) as [cache e2] eqn:Haq.
    simpl.
    set (s2 := {| activeChecks := activeChecks s + 1 - 1;
                  activeUsers := ({[user]} ∪ activeUsers s) ∖ {[user]};
                  lastCheck := <[user:=now]> (lastCheck s);
                  userHealthCache := cache;
                  suspended := resume user (suspended s ++ [user]) |}).
    assert (consistent s2) as Hs2.
    { destruct Hs as [Hc Hnd Hiff]. split; simpl.
      - rewrite resume_snoc by done. lia.
      - by rewrite resume_snoc.
      - intros u. rewrite resume_snoc by done. rewrite <- Hiff. set_solver. }
    destruct (IH s2 Hs2) as (H1 & H2 & H3 & H4).
    destruct (fullScan cfg rest s2) as [s3 e3]. simpl in *.
    rewrite H1, H2, H3, resume_snoc by done.
    assert (queries e2 = []) as Hq2.
    { pose proof (settle_counts cfg user o
        {| activeChecks := activeChecks s + 1;
           activeUsers := {[user]} ∪ activeUsers s;
           lastCheck := <[user:=now]> (lastCheck s);
           userHealthCache := userHealthCache s;
           suspended := suspended s ++ [user] |}) as [Hq _].
      unfold settle in Hq. by rewrite Haq in Hq. }
    split_and!; [done|lia|set_solver|].
    change (Query user now :: e2 ++ e3) with ([Query user now] ++ e2 ++ e3).
    rewrite !queries_app, Hq2, !length_app. simpl. lia.
Qed.

(** X13.  A full scan that nothing else disturbs, started in a reachable state:
    it is a sequence of runs of the event loop, so the state it ends in is
    reachable; it holds one slot at a time and ends with the counter, the
    set of addresses in flight and the suspended calls as it found them;
    and it issues at most one query per address of the list. *)
Theorem full_scan_takes_one_slot_at_a_time
    (visits : list (string * Z * Outcome)) (s : State) :
  reachable cfg s →
  exec cfg (scanEvents cfg visits s) s = Some (fullScan cfg visits s) ∧
  reachable cfg (fullScan cfg visits s).1 ∧
  suspended (fullScan cfg visits s).1 = suspended s ∧
  activeChecks (fullScan cfg visits s).1 = activeChecks s ∧
  activeUsers (fullScan cfg visits s).1 = activeUsers s ∧
  (length (queries (fullScan cfg visits s).2) ≤ length visits)%nat.
Proof.
  intros Hr. pose proof (reachable_consistent cfg s Hr) as Hs.
  pose proof (fullScan_exec visits s) as He.
  split; [done|]. split; [|by apply fullScan_slots].
  destruct Hr as (evs0 & effs0 & He0).
  destruct (fullScan cfg visits s) as [s' effs] eqn:Hscan. simpl.
  exists (evs0 ++ scanEvents cfg visits s), (effs0 ++ effs).
  by apply (exec_app evs0 _ initial s s').
Qed.

End Scan.

Section Pending.

Import Watcher.

Lemma prefix_split (p s : string) :
  String.prefix p s = true → ∃ r, s = String.append p r.
Proof.
  revert s. induction p as [|a p IH]; intros s; cbn [String.prefix].
  - intros _. by exists s.
  - destruct s as [|b s]; [done|]. cbn [String.prefix].
    destruct (ascii_dec a b) as [->|]; [|done].
    intros [r ->]%IH. by exists r.
Qed.

Context (cfg : Config) (decode : string → option string).

(** The decoder takes only data that starts with the selector of the
    function it decodes, 0x00a718a9 for the signature of line 224. *)
Hypothesis decode_selector :
  ∀ data user,
    decode data = Some user →
    String.prefix "0x00a718a9" (toLowerCase data) = true.

(** X14.  The pending-transaction callback keeps the transactions whose input
    starts with 0x00aa2d and decodes them as calls of [liquidationCall].
    If the decoder takes nothing but data that starts with the selector of
    that function, 0x00a718a9, no transaction passes both tests: whatever
    the input, the callback leaves the state as it is and issues no query;
    it logs a decode failure exactly for the inputs that start with
    0x00aa2d. *)
Theorem pending_callback_never_reaches_the_scheduler (now : Z)
    (input : option string) (s : State) :
  (onPending cfg decode now input s).1 = (s, []) ∧
  (onPending cfg decode now input s).2
    = match input with
      | Some data =>
          if String.prefix "0x00aa2d" data then [DecodeFailed] else []
      | None => []
      end.
Proof.
  unfold onPending. destruct input as [data|]; [|done].
  destruct (String.prefix "0x00aa2d" data) eqn:Hpre; [|done].
  destruct (decode data) as [user|] eqn:Hdec; [|done].
  apply decode_selector in Hdec.
  apply prefix_split in Hpre as [r ->].
  by vm_compute in Hdec.
Qed.

End Pending.

Section Ingestion.

Import Watcher.



Context (cfg : Config) (decode : string → option string).

(** The decoder takes only data that starts with the selector of the
    function it decodes, 0x00a718a9 for the signature of line 224. *)
Hypothesis decode_selector :
  ∀ data user,
    decode data = Some user →
    String.prefix "0x00a718a9" (toLowerCase data) = true.







End Ingestion.

(** * Further properties of the provider pool *)

Section Promotion.

Import Pool.

Context (urls : list string).

Lemma step_active_first_two (sig : Signal) (s s' : State) :
  poolInv urls s →
  (∀ a, activeProvider s = Some a → (a ≤ 1)%nat) →
  step sig s = Some s' →
  ∀ a, activeProvider s' = Some a → (a ≤ 1)%nat.
Proof.
  intros [Hp Hl Hs Hn] Hle. unfold step.
  destruct (decide _) as [Hlt|]; [|done]. intros [= <-].
  rewrite Hp in Hlt. destruct sig as [i|i|i]; simpl in *.
  - destruct (activeProvider s) as [a|] eqn:Ha; intros b [= <-]; [auto|].
    destruct (Hn eq_refl). lia.
  - rewrite (fallback_spec urls i s Hp Hlt).
    intros a. repeat case_decide; intros [= <-]; lia.
  - done.
Qed.

Lemma run_active_first_two (sigs : list Signal) (s s' : State) :
  poolInv urls s →
  (∀ a, activeProvider s = Some a → (a ≤ 1)%nat) →
  run sigs s = Some s' →
  ∀ a, activeProvider s' = Some a → (a ≤ 1)%nat.
Proof.
  revert s. induction sigs as [|sig sigs IH]; simpl; intros s Hs Hle Hrun.
  - by injection Hrun as <-.
  - destruct (step sig s) as [s1|] eqn:Hstep; [|done].
    eapply (IH s1); [by eapply step_poolInv| |done].
    by eapply step_active_first_two.
Qed.

(** X15.  The first provider is active from start-up, before any socket is
    open, and with two or more providers an open signal never changes
    the active provider: the promotion of the open listener can only
    happen with a sole provider, after its socket closed. *)
Theorem open_signal_promotes_only_a_sole_provider (sigs : list Signal)
    (s s' : State) (i : nat) :
  run sigs (startup urls) = Some s →
  step (WsOpen i) s = Some s' →
  (urls ≠ [] → activeProvider (startup urls) = Some 0%nat) ∧
  ((2 ≤ length urls)%nat → activeProvider s' = activeProvider s) ∧
  (activeProvider s' ≠ activeProvider s →
   length urls = 1%nat ∧ i = 0%nat ∧ activeProvider s = None ∧
   activeProvider s' = Some 0%nat).
Proof.
  intros Hrun Hstep.
  destruct (run_poolInv urls sigs _ s (startup_poolInv urls) Hrun)
    as [Hp Hl Hs Hn].
  unfold step in Hstep. destruct (decide _) as [Hlt|]; [|done].
  injection Hstep as <-. simpl in *. rewrite Hp in Hlt.
  split_and!.
  - destruct urls; [done|]. done.
  - intros Hlen. destruct (activeProvider s) eqn:Ha; [done|].
    destruct (Hn eq_refl). lia.
  - destruct (activeProvider s) eqn:Ha; [done|]. intros _.
    destruct (Hn eq_refl) as [Hle _].
    assert (i = 0)%nat as -> by lia. split_and!; (done || lia).
Qed.

(** X16.  After a close signal of provider [i] the active provider is never
    [i]: it is the other one of the first two providers, or none when [i]
    is the sole provider.  In every state the active provider, if any, is
    one of the first two. *)
Theorem close_signal_moves_off_the_closed_provider (sigs : list Signal)
    (s s' : State) (i : nat) :
  run sigs (startup urls) = Some s →
  step (WsClose i) s = Some s' →
  activeProvider s' ≠ Some i ∧
  (activeProvider s' = None ↔ length urls = 1%nat) ∧
  (∀ a, activeProvider s = Some a → (a ≤ 1)%nat) ∧
  (∀ a, activeProvider s' = Some a → (a ≤ 1)%nat).
Proof.
  intros Hrun Hstep.
  pose proof (run_poolInv urls sigs _ s (startup_poolInv urls) Hrun) as Hinv.
  assert (∀ a, activeProvider s = Some a → (a ≤ 1)%nat) as Hle.
  { eapply run_active_first_two; [apply startup_poolInv| |done].
    intros a. simpl. destruct (length urls); simpl; [done|].
    intros [= <-]. lia. }
  pose proof (step_active_first_two _ s s' Hinv Hle Hstep) as Hle'.
  destruct Hinv as [Hp Hl Hs Hn].
  unfold step in Hstep. destruct (decide _) as [Hlt|]; [|done].
  injection Hstep as <-. simpl in *. rewrite Hp in Hlt.
  rewrite (fallback_spec urls i s Hp Hlt) in *.
  split_and!; [| |done|done].
  - repeat case_decide; intros [= ?]; lia.
  - repeat case_decide; split; (done || lia).
Qed.

(** X17.  [poolContract] is bound once, to the first provider, and a promotion
    does not rebind it: with two or more providers, after the socket of
    the first provider closes the active provider is the second one, and
    the health queries still go through the first. *)
Theorem queries_do_not_follow_failover (sigs : list Signal)
    (s s' : State) :
  (2 ≤ length urls)%nat →
  run sigs (startup urls) = Some s →
  step (WsClose 0) s = Some s' →
  poolContract urls = Some 0%nat ∧
  activeProvider s' = Some 1%nat ∧
  lifecycle s' !! 0%nat = Some Closed.
Proof.
  intros Hlen Hrun Hstep.
  destruct (run_poolInv urls sigs _ s (startup_poolInv urls) Hrun)
    as [Hp Hl Hs Hn].
  unfold step in Hstep. destruct (decide _) as [Hlt|]; [|done].
  injection Hstep as <-. simpl in *. rewrite Hp in Hlt.
  split_and!.
  - unfold poolContract. simpl. destruct (length urls); [lia|done].
  - rewrite (fallback_spec urls 0 s Hp Hlt).
    rewrite decide_True by done. by rewrite decide_True.
  - apply list_lookup_insert_eq. lia.
Qed.

End Promotion.

Section SoleProvider.

Import Pool.

(** X18.  With [WSS_URL] set and [WSS_URL_SECONDARY] unset or empty there is one
    provider: every close signal leaves no active provider at all, and an
    open signal after it makes the provider active again. *)
Theorem sole_provider_close_leaves_none (primary : string)
    (WSS_URL_SECONDARY : option string) (sigs : list Signal)
    (s s' : State) (i : nat) :
  primary ≠ "" → truthy WSS_URL_SECONDARY = false →
  run sigs (startup (PROVIDER_URLS (Some primary) WSS_URL_SECONDARY))
    = Some s →
  step (WsClose i) s = Some s' →
  PROVIDER_URLS (Some primary) WSS_URL_SECONDARY = [primary] ∧
  activeProvider s' = None ∧
  ∀ j s'', step (WsOpen j) s' = Some s'' → activeProvider s'' = Some 0%nat.
Proof.
  intros Hp Hsec.
  assert (PROVIDER_URLS (Some primary) WSS_URL_SECONDARY = [primary])
    as ->.
  { unfold PROVIDER_URLS. simpl.
    destruct (String.eqb_spec primary ""); [done|]. simpl.
    destruct WSS_URL_SECONDARY as [sec|]; simpl in *; [|done].
    by destruct (String.eqb sec ""). }
  intros Hrun Hstep.
  destruct (run_poolInv [primary] sigs _ s (startup_poolInv [primary]) Hrun)
    as [Hprov Hl Hs Hn].
  unfold step in Hstep. destruct (decide _) as [Hlt|]; [|done].
  injection Hstep as <-. rewrite Hprov in Hlt. simpl in Hlt.
  assert (i = 0)%nat as -> by lia.
  assert (fallback 0 s = None) as Hfb.
  { unfold fallback. by rewrite Hprov. }
  split_and!; [done|done|].
  intros j s''. unfold step. simpl. rewrite Hprov. simpl.
  destruct (decide _) as [Hj|]; [|done]. intros [= <-]. simpl.
  rewrite Hfb. f_equal. lia.
Qed.

End SoleProvider.

(** * Further properties of the alert queue *)

Section Pacing.

Import Alert.

Lemma exec_split (evs1 evs2 : list Event) (s s' : State) (log : list Log) :
  exec (evs1 ++ evs2) s = Some (s', log) →
  ∃ s1 l1 l2,
    exec evs1 s = Some (s1, l1) ∧ exec evs2 s1 = Some (s', l2) ∧
    log = l1 ++ l2.
Proof.
  revert s log. induction evs1 as [|ev evs1 IH]; simpl; intros s log He.
  - by exists s, [], log.
  - destruct (step ev s) as [[sa la]|] eqn:Hstep; [|done].
    destruct (exec (evs1 ++ evs2) sa) as [[sb lb]|] eqn:Hrest; [|done].
    injection He as <- <-.
    destruct (IH sa lb Hrest) as (s1 & l1 & l2 & H1 & H2 & ->).
    exists s1, (la ++ l1), l2. rewrite H1. by rewrite app_assoc.
Qed.

Lemma pacedFrom_app (last : option Z) (l1 l2 : list Log) :
  pacedFrom last l1 → pacedFrom (lastEnd last l1) l2 →
  pacedFrom last (l1 ++ l2).
Proof.
  revert last. induction l1 as [|e l1 IH]; intros last; simpl; [done|].
  destruct e; simpl; try tauto; auto.
  intros [H1 H2] H3. auto.
Qed.

Lemma lastEnd_app (last : option Z) (l1 l2 : list Log) :
  lastEnd last (l1 ++ l2) = lastEnd (lastEnd last l1) l2.
Proof.
  revert last. induction l1 as [|e l1 IH]; intros last; simpl; [done|].
  by destruct e.
Qed.

Lemma burst_starts_draining (msgs : list (Z * string)) (s s' : State)
    (log : list Log) :
  bot s = true → timers s = [] →
  sending s = true ∨ ALERT_QUEUE s = [] →
  exec (burst msgs) s = Some (s', log) →
  draining None s' ∧ pacedFrom None log ∧ lastEnd None log = None.
Proof.
  revert s log. induction msgs as [|[t m] msgs IH]; intros s log Hb Ht Hs He.
  - injection He as <- <-. split_and!; [|done|done].
    split; [done|]. destruct Hs as [Hs|Hq]; [by left|].
    destruct (sending s) eqn:Hsend; [by left|right; left; done].
  - change (burst ((t, m) :: msgs)) with (Enqueue t m :: burst msgs) in He.
    simpl in He. unfold sendAlert, processQueue in He. simpl in He.
    rewrite Hb in He. simpl in He.
    destruct (sending s) eqn:Hsend; simpl in He.
    + destruct (exec (burst msgs) _) as [[s2 l2]|] eqn:Hrest; [|done].
      injection He as <- <-. simpl.
      eapply IH; [| | |exact Hrest]; simpl; auto.
    + destruct Hs as [?|Hq]; [done|]. rewrite Hq in He. simpl in He.
      destruct (exec (burst msgs) _) as [[s2 l2]|] eqn:Hrest; [|done].
      injection He as <- <-.
      edestruct IH as (Hd & Hp & Hl); [| | |exact Hrest|];
        [reflexivity|exact Ht|by left|].
      simpl. auto.
Qed.

Lemma step_draining (last : option Z) (ev : Event) (s s' : State)
    (log : list Log) :
  isEnqueue ev = false → oneSender s → draining last s →
  step ev s = Some (s', log) →
  pacedFrom last log ∧ draining (lastEnd last log) s'.
Proof.
  intros Hev Hone [Hb Hd] Hstep.
  destruct ev as [t m|t k ok|t k]; [done| |]; simpl in Hstep.
  - unfold finish in Hstep.
    destruct (inFlight s !! k) as [item|] eqn:Hk; [|done].
    injection Hstep as <- <-.
    assert (sending s = true ∧ timers s = []) as [Hsend Ht].
    { destruct Hone as [(Hsend & _)|(_ & Hfl)]; [|by rewrite Hfl in Hk].
      destruct Hd as [?|[(?&_)|(?&_)]]; [done|congruence|congruence]. }
    split; [by destruct ok|].
    assert (lastEnd last (Finished t item ok
                            :: (if ok then [] else [ConsoleError item]))
            = Some t) as -> by (by destruct ok).
    split; [done|]. simpl. rewrite Ht.
    destruct (ALERT_QUEUE s); [right; left; done|].
    right; right. split; [done|]. by exists t.
  - unfold timeout in Hstep.
    destruct (timers s !! k) as [due|] eqn:Hk; [|done].
    destruct (Z.leb_spec due t) as [Hdue|]; [|done].
    injection Hstep as Hst.
    destruct Hd as [(_ & Ht)|[(_ & _ & Ht)|(Hsend & f & -> & Ht)]];
      [by rewrite Ht in Hk|by rewrite Ht in Hk|].
    rewrite Ht in Hk. destruct k as [|k]; [|done].
    injection Hk as <-.
    unfold processQueue in Hst. simpl in Hst.
    rewrite Hb, Hsend, Ht in Hst. simpl in Hst.
    destruct (ALERT_QUEUE s) as [|item rest] eqn:Hq;
      injection Hst as <- <-; simpl.
    + split; [done|]. split; [done|]. right; left. done.
    + split; [split; [lia|done]|]. split; [done|]. by left.
Qed.

Lemma exec_draining (last : option Z) (evs : list Event) (s s' : State)
    (log : list Log) :
  Forall (λ ev, isEnqueue ev = false) evs →
  oneSender s → draining last s →
  exec evs s = Some (s', log) →
  pacedFrom last log ∧ draining (lastEnd last log) s'.
Proof.
  revert last s log.
  induction evs as [|ev evs IH]; simpl; intros last s log Hall Hone Hd He.
  - by injection He as <- <-.
  - apply Forall_cons in Hall as [Hev Hall].
    destruct (step ev s) as [[s1 l1]|] eqn:Hstep; [|done].
    destruct (exec evs s1) as [[s2 l2]|] eqn:Hrest; [|done].
    injection He as <- <-.
    destruct (step_draining last ev s s1 l1 Hev Hone Hd Hstep) as [Hp1 Hd1].
    pose proof (step_oneSender ev s s1 l1 Hone Hstep) as Hone1.
    destruct (IH _ s1 l2 Hall Hone1 Hd1 Hrest) as [Hp2 Hd2].
    split; [by apply pacedFrom_app|]. by rewrite lastEnd_app.
Qed.

(** X19.  The rate limit holds for a burst.  When messages are passed to
    [sendAlert] one after the other before any delivery ends, and no
    further message comes while they drain, every delivery after the first
    starts at least [TELEGRAM_INTERVAL_MS] after the end of the delivery
    before it, whether that one succeeded or failed. *)
Theorem burst_is_delivered_at_the_interval (msgs : list (Z * string))
    (rest : list Event) (s : State) (log : list Log) :
  Forall (λ ev, isEnqueue ev = false) rest →
  exec (burst msgs ++ rest) (startup true) = Some (s, log) →
  pacedFrom None log.
Proof.
  intros Hall He.
  apply exec_split in He as (s1 & l1 & l2 & H1 & H2 & ->).
  destruct (burst_starts_draining msgs (startup true) s1 l1 eq_refl eq_refl
              (or_intror eq_refl) H1) as (Hd & Hp & Hl).
  assert (oneSender s1) as Hone.
  { eapply exec_oneSender; [|exact H1]. by right. }
  apply pacedFrom_app; [done|]. rewrite Hl.
  by destruct (exec_draining None rest s1 s l2 Hall Hone Hd H2).
Qed.

Lemma step_not_stranded (ev : Event) (s s' : State) (log : list Log) :
  bot s = true →
  step ev s = Some (s', log) →
  sending s' = false → ALERT_QUEUE s' ≠ [] → timers s' ≠ [].
Proof.
  intros Hb Hstep. destruct ev as [t m|t k ok|t k]; simpl in Hstep.
  - injection Hstep as Hst. unfold sendAlert, processQueue in Hst.
    rewrite Hb in Hst. simpl in Hst.
    destruct (sending s) eqn:Hsend; simpl in Hst.
    + injection Hst as <- _. simpl. congruence.
    + destruct (ALERT_QUEUE s ++ _) eqn:Hq; injection Hst as <- _; simpl;
        [|done].
      by apply app_eq_nil in Hq as [_ ?].
  - unfold finish in Hstep. destruct (inFlight s !! k); [|done].
    injection Hstep as <- _. simpl. intros _ Hq.
    destruct (ALERT_QUEUE s); [done|]. by intros [? ?]%app_eq_nil.
  - unfold timeout in Hstep. destruct (timers s !! k); [|done].
    destruct (_ <=? _)%Z; [|done]. injection Hstep as Hst.
    unfold processQueue in Hst. simpl in Hst. rewrite Hb in Hst.
    simpl in Hst. destruct (sending s) eqn:Hsend; simpl in Hst.
    + injection Hst as <- _. simpl. congruence.
    + destruct (ALERT_QUEUE s) eqn:Hq; injection Hst as <- _; simpl;
        [congruence|done].
Qed.

Lemma exec_not_stranded (evs : list Event) (s s' : State) (log : list Log) :
  bot s = true →
  (sending s = false → ALERT_QUEUE s ≠ [] → timers s ≠ []) →
  exec evs s = Some (s', log) →
  sending s' = false → ALERT_QUEUE s' ≠ [] → timers s' ≠ [].
Proof.
  revert s log. induction evs as [|ev evs IH]; simpl; intros s log Hb Hs He.
  - by injection He as <- _.
  - destruct (step ev s) as [[s1 l1]|] eqn:Hstep; [|done].
    destruct (exec evs s1) as [[s2 l2]|] eqn:Hrest; [|done].
    injection He as <- _.
    destruct (step_fifo ev s s1 l1 Hb Hstep) as [_ Hb1].
    eapply (IH s1 l2 Hb1); [|done].
    exact (step_not_stranded ev s s1 l1 Hb Hstep).
Qed.

(** X20.  No message is stranded: in every state a dispatcher with a bot
    reaches, when messages wait and no delivery is in flight a timer is
    pending, and any pending timer, fired when it is due, hands the first
    waiting message to [bot.sendMessage]. *)
Theorem waiting_messages_have_a_timer (evs : list Event) (s : State)
    (log : list Log) (next : AlertItem) (rest : list AlertItem) :
  exec evs (startup true) = Some (s, log) →
  sending s = false → ALERT_QUEUE s = next :: rest →
  timers s ≠ [] ∧
  ∀ k due t,
    timers s !! k = Some due → (due ≤ t)%Z →
    ∃ s', timeout t k s = Some (s', [SendMessage t next]) ∧
          ALERT_QUEUE s' = rest ∧ sending s' = true.
Proof.
  intros He Hsend Hq.
  destruct (exec_fifo evs (startup true) s log eq_refl He) as [_ Hb].
  split.
  - eapply (exec_not_stranded evs (startup true) s log); try done.
    by rewrite Hq.
  - intros k due t Hk Hdue. unfold timeout. rewrite Hk.
    destruct (Z.leb_spec due t); [|lia].
    unfold processQueue. simpl. rewrite Hb, Hsend, Hq. simpl.
    eexists. split_and!; reflexivity.
Qed.

End Pacing.

(** * Examples of the further properties *)

Section MoreSchedulerExamples.

Import Watcher.

(** A first result of 0.98 in test mode: the alert follows the query. *)
Lemma alerts_follow_queries_at_risk_witness :
  ∃ s effs,
    exec testMode
      [UserEvent "0xab01" 100;
       Settled "0xab01" (Resolved (Some 0.98%float))] initial
      = Some (s, effs) ∧
    alerts effs = [("0xab01", 0.98%float)] ∧
    justified testMode effs.
Proof.
  eexists _, _. split; [vm_compute; reflexivity|].
  split; [vm_compute; reflexivity|].
  match goal with |- justified _ ?effs =>
    exact (alerts_follow_queries_at_risk testMode
             [UserEvent "0xab01" 100;
              Settled "0xab01" (Resolved (Some 0.98%float))] _ effs eq_refl)
  end.
Defined.

(** The query of [oneAdmitted] resolves with 0.98, the address is
    admitted again 40 seconds later, and that query resolves with 0.98
    too. *)
Lemma unchanged_metric_has_no_effect_witness :
  PrimFloat.eqb (parseHealthFactor (Some 0.98%float))
                (parseHealthFactor (Some 0.98%float)) = true ∧
  Forall (λ ev, resolves "0xab01" ev = false) [UserEvent "0xab01" 140] ∧
  ∃ s1 effs,
    exec testMode [UserEvent "0xab01" 140]
      (settle testMode "0xab01" (Resolved (Some 0.98%float)) oneAdmitted).1
      = Some (s1, effs) ∧
    effs = [Query "0xab01" 140] ∧
    (settle testMode "0xab01" (Resolved (Some 0.98%float)) s1).2 = [].
Proof.
  assert (Forall (λ ev, resolves "0xab01" ev = false)
            [UserEvent "0xab01" 140]) as Hall.
  { repeat constructor. }
  split; [reflexivity|]. split; [exact Hall|].
  eexists _, _. split; [vm_compute; reflexivity|]. split; [reflexivity|].
  match goal with |- (settle _ _ _ ?s1).2 = [] =>
    destruct (unchanged_metric_has_no_effect testMode "0xab01"
                (Some 0.98%float) oneAdmitted s1 [UserEvent "0xab01" 140] _
                eq_refl Hall eq_refl) as [H _]
  end.
  exact H.
Defined.

(** The query of [oneAdmitted], issued at 100 s, fails; a call at 129 s is
    dropped. *)
Lemma failed_query_costs_one_window_witness :
  USER_DEBOUNCE_SECONDS testMode = Int 30 ∧ 100%Z ≠ 0%Z ∧
  checkUserHealth testMode 100 "0xab01" initial
    = (oneAdmitted, [Query "0xab01" 100]) ∧
  checkUserHealth testMode 129 "0xab01"
      (settle testMode "0xab01" Rejected oneAdmitted).1
    = ((settle testMode "0xab01" Rejected oneAdmitted).1, []).
Proof.
  split; [reflexivity|]. split; [lia|]. split; [reflexivity|].
  destruct (failed_query_costs_one_window testMode 30 100 "0xab01" initial
              oneAdmitted eq_refl ltac:(lia) eq_refl)
    as (_ & _ & _ & _ & H & _).
  apply H. lia.
Defined.

(** Two addresses queried, one query ended. *)
Lemma queries_are_settled_or_in_flight_witness :
  ∃ s effs,
    exec testMode
      [UserEvent "0xab01" 100; UserEvent "0xab02" 100;
       Settled "0xab01" Rejected] initial = Some (s, effs) ∧
    length (queries effs) = 2%nat ∧
    length (queries effs)
      = (settles [UserEvent "0xab01" 100; UserEvent "0xab02" 100;
                  Settled "0xab01" Rejected] + length (suspended s))%nat.
Proof.
  eexists _, _. split; [vm_compute; reflexivity|].
  split; [reflexivity|].
  match goal with |- length (queries ?effs) = (_ + length (suspended ?s))%nat =>
    destruct (queries_are_settled_or_in_flight testMode
                [UserEvent "0xab01" 100; UserEvent "0xab02" 100;
                 Settled "0xab01" Rejected] s effs eq_refl) as [H _]
  end.
  exact H.
Defined.

(** From [oneAdmitted], the one query in flight ends rejected. *)
Lemma all_slots_are_released_witness :
  reachable testMode oneAdmitted ∧
  ∃ s' effs,
    exec testMode (settleAll (λ _, Rejected) (suspended oneAdmitted))
         oneAdmitted = Some (s', effs) ∧
    suspended s' = [] ∧ activeChecks s' = 0%Z ∧ activeUsers s' = ∅.
Proof.
  split; [apply oneAdmitted_reachable|].
  exact (all_slots_are_released testMode (λ _, Rejected) oneAdmitted
           oneAdmitted_reachable).
Defined.

(** Five addresses at once, one more than the default cap of 4. *)
Lemma unparsable_cap_is_no_cap_witness :
  MAX_CONCURRENT_CHECKS noCap = NaN ∧
  NoDup ["0xab01"; "0xab02"; "0xab03"; "0xab04"; "0xab05"] ∧
  ∃ s,
    exec noCap
      (notifyAll 100 ["0xab01"; "0xab02"; "0xab03"; "0xab04"; "0xab05"])
      initial
      = Some (s, (λ u, Query u 100)
                   <$> ["0xab01"; "0xab02"; "0xab03"; "0xab04"; "0xab05"]) ∧
    suspended s = ["0xab01"; "0xab02"; "0xab03"; "0xab04"; "0xab05"] ∧
    activeChecks s = Z.of_nat 5.
Proof.
  assert (NoDup ["0xab01"; "0xab02"; "0xab03"; "0xab04"; "0xab05"]) as Hnd.
  { compute_done. }
  split; [reflexivity|]. split; [exact Hnd|].
  exact (unparsable_cap_is_no_cap noCap 100 _ eq_refl Hnd).
Defined.

(** With a cap of 0 two notifications are dropped. *)
Lemma nonpositive_cap_admits_nothing_witness :
  MAX_CONCURRENT_CHECKS zeroCap = Int 0 ∧ (0 ≤ 0)%Z ∧
  ∃ s effs,
    exec zeroCap [UserEvent "0xab01" 100; PendingTx "0xab02" 101] initial
      = Some (s, effs) ∧
    s = initial ∧ effs = [].
Proof.
  split; [reflexivity|]. split; [lia|].
  eexists _, _. split; [vm_compute; reflexivity|].
  exact (nonpositive_cap_admits_nothing zeroCap 0
           [UserEvent "0xab01" 100; PendingTx "0xab02" 101] _ _ eq_refl
           ltac:(lia) eq_refl).
Defined.

(** The records of [oneAdmitted]. *)
Lemma records_only_grow_witness :
  reachable testMode oneAdmitted ∧
  activeUsers oneAdmitted ⊆ dom (lastCheck oneAdmitted).
Proof.
  split; [apply oneAdmitted_reachable|].
  destruct (records_only_grow testMode oneAdmitted oneAdmitted_reachable)
    as [H _].
  exact H.
Defined.

(** A record made at 100.5 s and a call at 129.4 s, window 30 s: 28.9 s
    have passed, the call is dropped. *)
Lemma debounce_window_in_milliseconds_witness :
  USER_DEBOUNCE_SECONDS testMode = Int 30 ∧
  lastCheck oneAdmitted !! "0xab01" = Some (nowSeconds 100500) ∧
  nowSeconds 100500 ≠ 0%Z ∧
  (129400 - 100500 ≤ (30 - 1) * 1000)%Z ∧
  shouldSkipUser testMode (nowSeconds 129400) "0xab01" oneAdmitted = true.
Proof.
  assert (lastCheck oneAdmitted !! "0xab01" = Some (nowSeconds 100500))
    as Hl by (vm_compute; reflexivity).
  assert (nowSeconds 100500 ≠ 0%Z) as Hnz by (vm_compute; congruence).
  split; [reflexivity|]. split; [exact Hl|]. split; [exact Hnz|].
  split; [lia|].
  destruct (debounce_window_in_milliseconds testMode 30 100500 129400
              "0xab01" oneAdmitted eq_refl Hl Hnz) as [H _].
  apply H. lia.
Defined.

(** A scan of two addresses from start-up. *)
Lemma full_scan_takes_one_slot_at_a_time_witness :
  reachable testMode initial ∧
  activeChecks
    (fullScan testMode
       [("0xab01", 100%Z, Resolved (Some 0.98%float));
        ("0xab02", 101%Z, Rejected)] initial).1
    = activeChecks initial.
Proof.
  assert (reachable testMode initial) as Hr by (by exists [], []).
  split; [exact Hr|].
  destruct (full_scan_takes_one_slot_at_a_time testMode
              [("0xab01", 100%Z, Resolved (Some 0.98%float));
               ("0xab02", 101%Z, Rejected)] initial Hr)
    as (_ & _ & _ & H & _).
  exact H.
Defined.

(** The decoder [selectorDecode] and an input that starts with
    0x00aa2d. *)
Lemma pending_callback_never_reaches_the_scheduler_witness :
  (∀ data user,
     selectorDecode data = Some user →
     String.prefix "0x00a718a9" (toLowerCase data) = true) ∧
  (onPending testMode selectorDecode 100 (Some "0x00aa2d4100") initial).1
    = (initial, []).
Proof.
  assert (∀ data user,
            selectorDecode data = Some user →
            String.prefix "0x00a718a9" (toLowerCase data) = true) as Hdec.
  { intros data user. unfold selectorDecode.
    by destruct (String.prefix "0x00a718a9" (toLowerCase data)). }
  split; [exact Hdec|].
  destruct (pending_callback_never_reaches_the_scheduler testMode
              selectorDecode Hdec 100 (Some "0x00aa2d4100") initial)
    as [H _].
  exact H.
Defined.


End MoreSchedulerExamples.

Section MoreFailoverExamples.

Import Pool.

(** The first provider closes and opens again: the second stays
    active. *)
Lemma open_signal_promotes_only_a_sole_provider_witness :
  ∃ s s',
    run [WsClose 0] (startup twoUrls) = Some s ∧
    step (WsOpen 0) s = Some s' ∧
    activeProvider s = Some 1%nat ∧
    activeProvider s' = activeProvider s.
Proof.
  eexists _, _. split; [vm_compute; reflexivity|].
  split; [vm_compute; reflexivity|]. split; [reflexivity|].
  match goal with |- activeProvider ?s' = activeProvider ?s =>
    destruct (open_signal_promotes_only_a_sole_provider twoUrls
                [WsClose 0] s s' 0 eq_refl eq_refl) as (_ & H & _)
  end.
  apply H. simpl. lia.
Defined.

(** The second provider closes while the first is active. *)
Lemma close_signal_moves_off_the_closed_provider_witness :
  ∃ s s',
    run [WsOpen 0; WsOpen 1] (startup twoUrls) = Some s ∧
    step (WsClose 1) s = Some s' ∧
    activeProvider s' ≠ Some 1%nat.
Proof.
  eexists _, _. split; [vm_compute; reflexivity|].
  split; [vm_compute; reflexivity|].
  match goal with |- activeProvider ?s' ≠ _ =>
    destruct (close_signal_moves_off_the_closed_provider twoUrls
                [WsOpen 0; WsOpen 1] _ s' 1 eq_refl eq_refl) as (H & _)
  end.
  exact H.
Defined.

(** The first provider closes. *)
Lemma queries_do_not_follow_failover_witness :
  (2 ≤ length twoUrls)%nat ∧
  ∃ s s',
    run [WsOpen 0; WsOpen 1] (startup twoUrls) = Some s ∧
    step (WsClose 0) s = Some s' ∧
    poolContract twoUrls = Some 0%nat ∧
    activeProvider s' = Some 1%nat.
Proof.
  assert (2 ≤ length twoUrls)%nat as Hlen by (simpl; lia).
  split; [exact Hlen|].
  eexists _, _. split; [vm_compute; reflexivity|].
  split; [vm_compute; reflexivity|].
  match goal with |- _ ∧ activeProvider ?s' = _ =>
    destruct (queries_do_not_follow_failover twoUrls
                [WsOpen 0; WsOpen 1] _ s' Hlen eq_refl eq_refl)
      as (H1 & H2 & _)
  end.
  split; [exact H1|exact H2].
Defined.

(** Only [WSS_URL] is set. *)
Lemma sole_provider_close_leaves_none_witness :
  "wss://primary" ≠ "" ∧ truthy None = false ∧
  ∃ s s',
    run [WsOpen 0]
        (startup (PROVIDER_URLS (Some "wss://primary") None)) = Some s ∧
    step (WsClose 0) s = Some s' ∧
    activeProvider s' = None.
Proof.
  assert ("wss://primary" ≠ "") as Hne by done.
  split; [exact Hne|]. split; [reflexivity|].
  eexists _, _. split; [vm_compute; reflexivity|].
  split; [vm_compute; reflexivity|].
  match goal with |- activeProvider ?s' = None =>
    destruct (sole_provider_close_leaves_none "wss://primary" None
                [WsOpen 0] _ s' 0 Hne eq_refl eq_refl eq_refl)
      as (_ & H & _)
  end.
  exact H.
Defined.

End MoreFailoverExamples.

Section MoreDeliveryExamples.

Import Alert.

(** Three messages at once, the first delivered, the second failed. *)
Lemma burst_is_delivered_at_the_interval_witness :
  Forall (λ ev, isEnqueue ev = false)
    [Settle 50 0 true; Timer 1050 0; Settle 1100 0 false; Timer 2100 0] ∧
  ∃ s log,
    exec (burst [(0%Z, "a"); (10%Z, "b"); (20%Z, "c")]
            ++ [Settle 50 0 true; Timer 1050 0; Settle 1100 0 false;
                Timer 2100 0]) (startup true) = Some (s, log) ∧
    attempts log
      = [{| message := (0%Z, "a") |}; {| message := (10%Z, "b") |};
         {| message := (20%Z, "c") |}] ∧
    pacedFrom None log.
Proof.
  assert (Forall (λ ev, isEnqueue ev = false)
            [Settle 50 0 true; Timer 1050 0; Settle 1100 0 false;
             Timer 2100 0]) as Hall by (repeat constructor).
  split; [exact Hall|].
  eassert (exec (burst [(0%Z, "a"); (10%Z, "b"); (20%Z, "c")]
                   ++ [Settle 50 0 true; Timer 1050 0; Settle 1100 0 false;
                       Timer 2100 0]) (startup true) = Some (_, _)) as Hex
    by (vm_compute; reflexivity).
  eexists _, _. split; [exact Hex|].
  split; [vm_compute; reflexivity|].
  exact (burst_is_delivered_at_the_interval
           [(0%Z, "a"); (10%Z, "b"); (20%Z, "c")] _ _ _ Hall Hex).
Defined.

(** One delivery ended with a message waiting. *)
Lemma waiting_messages_have_a_timer_witness :
  ∃ s log,
    exec [Enqueue 0 "a"; Enqueue 10 "b"; Settle 50 0 true] (startup true)
      = Some (s, log) ∧
    sending s = false ∧
    ALERT_QUEUE s = [{| message := (10%Z, "b") |}] ∧
    timers s ≠ [].
Proof.
  eexists _, _. split; [vm_compute; reflexivity|].
  split; [reflexivity|]. split; [reflexivity|].
  match goal with |- timers ?s ≠ [] =>
    destruct (waiting_messages_have_a_timer
                [Enqueue 0 "a"; Enqueue 10 "b"; Settle 50 0 true] s _
                {| message := (10%Z, "b") |} [] eq_refl eq_refl eq_refl)
      as [H _]
  end.
  exact H.
Defined.

End MoreDeliveryExamples.
